(** * rrweb-player: the playback controller (src/Controller.svelte)

    A shallow embedding of the controller's script block: the reactive
    values [percentage] and [customEvents], the animation-frame timer loop,
    the exported commands ([toggle], [play], [pause], [goto], [setSpeed],
    [toggleSkipInactive]), the progress-bar click handler and the
    subscriptions installed by [onMount].

    JavaScript numbers are IEEE-754 binary64 values.  They are modelled
    exactly: every arithmetic operation is the exact result rounded to the
    nearest double, ties to even, with signed zeros, infinities and NaN. *)

From Stdlib Require Import ZArith NArith Lia Bool List String Ascii DecimalString.
From Stdlib Require Import Floats.SpecFloat.
From stdpp Require Import base option list gmap strings.

Local Open Scope N_scope.

(** ** JavaScript numbers *)

(** A finite double is an integer multiple of 2^-1074, the smallest
    subnormal.  [Finite neg u] is the value (-1)^neg * u * 2^-1074. *)
Inductive number : Type :=
  | NaN
  | Infinity (neg : bool)
  | Finite (neg : bool) (units : N).

Definition unit_scale : N := 2 ^ 1074.

(** The first magnitude that no longer rounds to a finite double: 2^1024. *)
Definition overflow_threshold : N := 2 ^ 2098.

(** n/d rounded to the nearest integer, ties to even. *)
Definition rne (n d : N) : N :=
  let q := n / d in
  match 2 * (n mod d) ?= d with
  | Lt => q
  | Eq => if N.even q then q else q + 1
  | Gt => q + 1
  end.

(** n/d (in units) rounded to 53 significant bits.  Below 2^53 units the
    doubles are one unit apart; a magnitude with 53+sh bits is rounded to
    a multiple of 2^sh. *)
Definition round_mag (n d : N) : N :=
  let sh := N.log2 (n / d) - 52 in
  rne n (d * 2 ^ sh) * 2 ^ sh.

Definition round (neg : bool) (n d : N) : number :=
  let r := round_mag n d in
  if r <? overflow_threshold then Finite neg r else Infinity neg.

(** A numeric literal or an integer-valued number. *)
Definition of_Z (z : Z) : number :=
  round (z <? 0)%Z (Z.abs_N z * unit_scale) 1.

Definition signed (neg : bool) (u : N) : Z :=
  if neg then (- Z.of_N u)%Z else Z.of_N u.

(** [x - y] *)
Definition fsub (x y : number) : number :=
  match x, y with
  | NaN, _ | _, NaN => NaN
  | Infinity sx, Infinity sy => if Bool.eqb sx sy then NaN else Infinity sx
  | Infinity sx, Finite _ _ => Infinity sx
  | Finite _ _, Infinity sy => Infinity (negb sy)
  | Finite sx ux, Finite sy uy =>
      let z := (signed sx ux - signed sy uy)%Z in
      if (z =? 0)%Z
      then Finite (sx && negb sy && (ux =? 0) && (uy =? 0)) 0
      else round (z <? 0)%Z (Z.abs_N z) 1
  end.

(** [x * y] *)
Definition fmul (x y : number) : number :=
  match x, y with
  | NaN, _ | _, NaN => NaN
  | Infinity sx, Infinity sy => Infinity (xorb sx sy)
  | Infinity sx, Finite sy uy =>
      if uy =? 0 then NaN else Infinity (xorb sx sy)
  | Finite sx ux, Infinity sy =>
      if ux =? 0 then NaN else Infinity (xorb sx sy)
  | Finite sx ux, Finite sy uy => round (xorb sx sy) (ux * uy) unit_scale
  end.

(** [x / y] *)
Definition fdiv (x y : number) : number :=
  match x, y with
  | NaN, _ | _, NaN => NaN
  | Infinity _, Infinity _ => NaN
  | Infinity sx, Finite sy _ => Infinity (xorb sx sy)
  | Finite sx _, Infinity sy => Finite (xorb sx sy) 0
  | Finite sx ux, Finite sy uy =>
      if uy =? 0
      then (if ux =? 0 then NaN else Infinity (xorb sx sy))
      else round (xorb sx sy) (ux * unit_scale) uy
  end.

(** The extended real line, to compare numbers by value. *)
Inductive ext : Type := MInf | Real (z : Z) | PInf.

Definition ext_le (a b : ext) : bool :=
  match a, b with
  | MInf, _ => true
  | _, PInf => true
  | Real x, Real y => (x <=? y)%Z
  | _, _ => false
  end.

Definition ext_lt (a b : ext) : bool :=
  match a, b with
  | MInf, MInf => false
  | MInf, _ => true
  | PInf, _ => false
  | Real _, MInf => false
  | Real x, Real y => (x <? y)%Z
  | Real _, PInf => true
  end.

(** The value of a number, in units; [None] for NaN. *)
Definition val (x : number) : option ext :=
  match x with
  | NaN => None
  | Infinity true => Some MInf
  | Infinity false => Some PInf
  | Finite s u => Some (Real (signed s u))
  end.

(** [x < y], [x <= y], [x > y]; every comparison with NaN is false. *)
Definition flt (x y : number) : bool :=
  match val x, val y with
  | Some a, Some b => ext_lt a b
  | _, _ => false
  end.

Definition fle (x y : number) : bool :=
  match val x, val y with
  | Some a, Some b => ext_le a b
  | _, _ => false
  end.

Definition fgt (x y : number) : bool := flt y x.

Definition is_finite (x : number) : bool :=
  match x with Finite _ _ => true | _ => false end.

(** [Math.min(x, y)]: NaN if either is NaN; -0 counts as smaller than +0. *)
Definition Math_min (x y : number) : number :=
  match x, y with
  | NaN, _ | _, NaN => NaN
  | _, _ =>
      if flt x y then x
      else if flt y x then y
      else match x with
           | Finite true _ => x
           | _ => y
           end
  end.

(** A magnitude is a double when it fits 53 significant bits and is finite. *)
Definition is_double (x : number) : bool :=
  match x with
  | Finite _ u =>
      (u <? overflow_threshold) && (u mod 2 ^ (N.log2 u - 52) =? 0)
  | _ => true
  end.

(** The same value in the Standard Library's binary64 format. *)
Definition to_SF (x : number) : spec_float :=
  match x with
  | NaN => S754_nan
  | Infinity s => S754_infinity s
  | Finite s u =>
      match u with
      | 0 => S754_zero s
      | _ => let sh := N.log2 u - 52 in
             S754_finite s (N.succ_pos (N.pred (u / 2 ^ sh))) (Z.of_N sh - 1074)
      end
  end.

(** ** Number to string conversions *)

Local Open Scope string_scope.

Definition decimal (n : N) : string := NilZero.string_of_uint (N.to_uint n).

Fixpoint zeros (k : nat) : string :=
  match k with
  | O => EmptyString
  | S k' => String "0" (zeros k')
  end.

Definition take_string (k : nat) (s : string) : string := substring 0 k s.
Definition drop_string (k : nat) (s : string) : string :=
  substring k (String.length s - k) s.

(** The exponent n of [Number::toString]: 10^(n-1) <= u/2^1074 < 10^n. *)
Fixpoint negative_exponent (fuel : nat) (u : N) (j : Z) : Z :=
  match fuel with
  | O => j
  | S fuel' =>
      if (unit_scale <=? u * 10)%N then j
      else negative_exponent fuel' (u * 10)%N (j - 1)%Z
  end.

Definition decimal_exponent (u : N) : Z :=
  if (unit_scale <=? u)%N
  then Z.of_nat (String.length (decimal (u / unit_scale)))
  else negative_exponent 400 u 0.

(** The double nearest to s * 10^p. *)
Definition of_decimal (s : N) (p : Z) : number :=
  match p with
  | Zneg q => round false (s * unit_scale) (10 ^ Npos q)
  | _ => round false (s * unit_scale * 10 ^ Z.to_N p) 1
  end.

Definition same_number (x y : number) : bool :=
  match x, y with
  | Finite sx ux, Finite sy uy => Bool.eqb sx sy && (ux =? uy)%N
  | Infinity sx, Infinity sy => Bool.eqb sx sy
  | _, _ => false
  end.

(** The k-digit decimals next to u/2^1074 that read back as the same
    double; the closer one when both do. *)
Definition digits_of_length (u : N) (n : Z) (k : N) : option N :=
  let p := (Z.of_N k - n)%Z in
  let '(num, den) :=
    match p with
    | Zneg q => (u, unit_scale * 10 ^ Npos q)
    | _ => (u * 10 ^ Z.to_N p, unit_scale)
    end%N in
  let lo := (num / den)%N in
  let hi := (lo + 1)%N in
  let ok s := same_number (of_decimal s (- p)) (Finite false u) in
  match ok lo, ok hi with
  | true, true =>
      match (2 * (num mod den) ?= den)%N with
      | Lt => Some lo
      | Gt => Some hi
      | Eq => if N.even lo then Some lo else Some hi
      end
  | true, false => Some lo
  | false, true => Some hi
  | false, false => None
  end.

Fixpoint shortest_digits (fuel : nat) (u : N) (n : Z) (k : N) : N * N :=
  match fuel with
  | O => (k, u)
  | S fuel' =>
      match digits_of_length u n k with
      | Some s => (k, s)
      | None => shortest_digits fuel' u n (k + 1)
      end
  end.

(** [Number::toString(x)] in radix 10 (ECMAScript 6.1.6.1.20). *)
Definition Number_toString (x : number) : string :=
  match x with
  | NaN => "NaN"
  | Infinity false => "Infinity"
  | Infinity true => "-Infinity"
  | Finite neg u =>
      if (u =? 0)%N then "0" else
      let n0 := decimal_exponent u in
      let '(k, s0) := shortest_digits 17 u n0 1 in
      let '(s, n) := if (s0 =? 10 ^ k)%N
                     then ((10 ^ (k - 1))%N, (n0 + 1)%Z) else (s0, n0) in
      let ds := decimal s in
      let kn := N.to_nat k in
      let body :=
        if ((Z.of_N k <=? n) && (n <=? 21))%Z
        then ds +:+ zeros (Z.to_nat (n - Z.of_N k))
        else if ((0 <? n) && (n <=? 21))%Z
        then take_string (Z.to_nat n) ds +:+ "." +:+ drop_string (Z.to_nat n) ds
        else if ((-6 <? n) && (n <=? 0))%Z
        then "0." +:+ zeros (Z.to_nat (- n)) +:+ ds
        else
          let e := (n - 1)%Z in
          let es := (if (e <? 0)%Z then "-" else "+") +:+ decimal (Z.abs_N e) in
          if (k =? 1)%N then ds +:+ "e" +:+ es
          else take_string 1 ds +:+ "." +:+ drop_string 1 ds +:+ "e" +:+ es
      in
      (if neg then "-" else EmptyString) +:+ body
  end.

(** [x.toFixed(f)] (ECMAScript 20.1.3.3), for 0 <= f <= 100. *)
Definition toFixed (x : number) (f : N) : string :=
  match x with
  | NaN | Infinity _ => Number_toString x
  | Finite neg u =>
      let s := if neg && (0 <? u)%N then "-" else EmptyString in
      if (10 ^ 21 * unit_scale <=? u)%N
      then s +:+ Number_toString (Finite false u)
      else
        (* the integer n for which n / 10^f - x is closest to zero, the
           larger one when there are two *)
        let num := (u * 10 ^ f)%N in
        let q := (num / unit_scale)%N in
        let n := if (unit_scale <=? 2 * (num mod unit_scale))%N
                 then (q + 1)%N else q in
        let m := decimal n in
        if (f =? 0)%N then s +:+ m
        else
          let fn := N.to_nat f in
          let k := String.length m in
          let m' := if (k <=? fn)%nat then zeros (fn + 1 - k) +:+ m else m in
          let k' := String.length m' in
          s +:+ take_string (k' - fn) m' +:+ "." +:+ drop_string (k' - fn) m'
  end.

(** ** The event log *)

(** [EventType] of rrweb. *)
Inductive EventType : Type :=
  | DomContentLoaded | Load | FullSnapshot | IncrementalSnapshot
  | Meta | Custom | Plugin.

(** The payload of an event; it fixes the event's [type].  Only custom
    events carry a [tag]. *)
Inductive eventData : Type :=
  | domContentLoadedEvent
  | loadEvent
  | fullSnapshotEvent
  | incrementalSnapshotEvent
  | metaEvent
  | customEvent (tag : string)
  | pluginEvent.

Record eventWithTime : Type := {
  data : eventData;
  timestamp : number
}.

Definition type (event : eventWithTime) : EventType :=
  match data event with
  | domContentLoadedEvent => DomContentLoaded
  | loadEvent => Load
  | fullSnapshotEvent => FullSnapshot
  | incrementalSnapshotEvent => IncrementalSnapshot
  | metaEvent => Meta
  | customEvent _ => Custom
  | pluginEvent => Plugin
  end.

(** ** Custom markers on the timeline *)

(** What [tags[tag] || 'rgb(73, 80, 246)'] can evaluate to.  [tags] is a
    plain object whose own properties hold strings, so the value is a
    colour string or, for a key the object does not hold itself, a member
    inherited from [Object.prototype]: a function ([tags.constructor] is
    [Object]), or the prototype itself for [__proto__].  The type
    annotation [background: string] does not keep such a value out. *)
Inductive tagValue : Type :=
  | Colour (colour : string)
  | Inherited (member : string).

Coercion Colour : string >-> tagValue.

Record CustomEvent : Type := {
  name : string;
  background : tagValue;
  position : string
}.

(** The inner [position] arrow function: calculate tag position. *)
Definition tag_position (startTime endTime tagTime : number) : string :=
  let sessionDuration := fsub endTime startTime in
  let eventDuration := fsub endTime tagTime in
  let eventPosition :=
    fsub (of_Z 100) (fmul (fdiv eventDuration sessionDuration) (of_Z 100)) in
  toFixed eventPosition 2.

Definition default_background : string := "rgb(73, 80, 246)".

(** The property names of [Object.prototype], which every plain object
    inherits. *)
Definition Object_prototype : list string :=
  ["constructor"; "__defineGetter__"; "__defineSetter__"; "hasOwnProperty";
   "__lookupGetter__"; "__lookupSetter__"; "isPrototypeOf";
   "propertyIsEnumerable"; "toString"; "valueOf"; "__proto__";
   "toLocaleString"].

(** [tags[tag]]: the object's own property if it has one, else the member
    of that name on its prototype, else [undefined] ([None]). *)
Definition tags_get (tags : gmap string string) (tag : string)
  : option tagValue :=
  match tags !! tag with
  | Some colour => Some (Colour colour)
  | None =>
      if existsb (String.eqb tag) Object_prototype
      then Some (Inherited tag) else None
  end.

(** [tags[tag] || 'rgb(73, 80, 246)']: [undefined] and the empty string are
    falsy and give the default; an inherited member is truthy and is kept. *)
Definition tag_background (tags : gmap string string) (tag : string)
  : tagValue :=
  match tags_get tags tag with
  | Some (Colour (String c rest)) => Colour (String c rest)
  | Some (Inherited member) => Inherited member
  | _ => Colour default_background
  end.

(** The body of the [forEach] callback: push a marker for a custom event. *)
Definition push_custom (start end_ : number) (tags : gmap string string)
    (acc : list CustomEvent) (event : eventWithTime) : list CustomEvent :=
  match data event with
  | customEvent tag =>
      acc ++ [ {| name := tag;
                  background := tag_background tags tag;
                  position := tag_position start end_ (timestamp event) +:+ "%" |} ]
  | _ => acc
  end.

(** The reactive [customEvents] value.  Reading [events[0].timestamp] of an
    empty log throws a TypeError: [None]. *)
Definition customEvents (events : list eventWithTime)
    (tags : gmap string string) : option (list CustomEvent) :=
  match events with
  | [] => None
  | first :: _ =>
      let start := timestamp first in
      let end_ := timestamp (List.last events first) in
      Some (fold_left (push_custom start end_ tags) events [])
  end.

(** ** The progress percentage *)

(** [Math.min(1, currentTime / meta.totalTime)] *)
Definition percent (currentTime totalTime : number) : number :=
  Math_min (of_Z 1) (fdiv currentTime totalTime).

(** The number interpolated into the [percentage] template string. *)
Definition percentage_value (currentTime totalTime : number) : number :=
  fmul (of_Z 100) (percent currentTime totalTime).

Definition percentage (currentTime totalTime : number) : string :=
  Number_toString (percentage_value currentTime totalTime) +:+ "%".

(** ** The replay engine, as the controller sees it *)

Inductive PlayerValue : Type := playing | paused | live.
Inductive SpeedValue : Type := normal | skipping.

#[global] Instance PlayerValue_eq_dec : EqDecision PlayerValue.
Proof. solve_decision. Defined.
#[global] Instance SpeedValue_eq_dec : EqDecision SpeedValue.
Proof. solve_decision. Defined.

(** What the engine emits to its subscribers: ['state-change'] with the
    optional [player] and [speed] machine states, and ['finish']. *)
Inductive Notification : Type :=
  | StateChange (player : option PlayerValue) (speed : option SpeedValue)
  | Finish.

(** The argument of [replayer.setConfig]. *)
Inductive playerConfig : Type :=
  | config_speed (speed : number)
  | config_skipInactive (skipInactive : bool).

(** The calls the controller makes on the engine. *)
Inductive EngineCall : Type :=
  | CallPlay (timeOffset : option number)
  | CallPause
  | CallSetConfig (config : playerConfig).

Record playerMetaData : Type := {
  startTime : number;
  endTime : number;
  totalTime : number
}.

(** The [Replayer] interface.  A command returns the engine's next state
    together with the notifications it emitted, synchronously, while the
    command ran. *)
Class Replayer (E : Type) : Type := {
  replayer_play : option number -> E -> E * list Notification;
  replayer_pause : E -> E * list Notification;
  replayer_setConfig : playerConfig -> E -> E * list Notification;
  replayer_getCurrentTime : E -> number;
  replayer_getMetaData : E -> playerMetaData;
  service_state_value : E -> PlayerValue;
  speedService_state_value : E -> SpeedValue;
  service_state_context_events : E -> list eventWithTime;
  replayer_config_skipInactive : E -> bool
}.

(** Modelled from the spec: the replay engine is an external collaborator
    (the rrweb Replayer); only its interface is used by the controller.
    This instance is the player machine the spec describes: PlaybackState
    is one of playing, paused, live; pause takes playing to paused, play
    takes paused to playing (and restarts a playing engine at the offset),
    live mode ignores both; each command notifies the subscribers of the
    resulting state; a speed change is announced as a speed notification.
    The offset of play defaults to 0. *)
Record Machine : Type := {
  m_player : PlayerValue;
  m_speed : SpeedValue;
  m_events : list eventWithTime;
  m_time : number;
  m_config_speed : number;
  m_config_skipInactive : bool
}.

Definition m_send_pause (m : Machine) : Machine :=
  match m_player m with
  | playing =>
      {| m_player := paused; m_speed := m_speed m; m_events := m_events m;
         m_time := m_time m; m_config_speed := m_config_speed m;
         m_config_skipInactive := m_config_skipInactive m |}
  | _ => m
  end.

Definition m_send_play (timeOffset : number) (m : Machine) : Machine :=
  match m_player m with
  | paused =>
      {| m_player := playing; m_speed := m_speed m; m_events := m_events m;
         m_time := timeOffset; m_config_speed := m_config_speed m;
         m_config_skipInactive := m_config_skipInactive m |}
  | _ => m
  end.

Definition m_announce (m : Machine) : Notification :=
  StateChange (Some (m_player m)) None.

Definition m_play (timeOffset : option number) (m : Machine)
  : Machine * list Notification :=
  let offset := default (of_Z 0) timeOffset in
  match m_player m with
  | paused =>
      let m1 := m_send_play offset m in (m1, [m_announce m1])
  | _ =>
      let m1 := m_send_pause m in
      let m2 := m_send_play offset m1 in
      (m2, [m_announce m1; m_announce m2])
  end.

Definition m_pause (m : Machine) : Machine * list Notification :=
  let m1 := m_send_pause m in (m1, [m_announce m1]).

Definition m_setConfig (c : playerConfig) (m : Machine)
  : Machine * list Notification :=
  match c with
  | config_speed v =>
      ({| m_player := m_player m; m_speed := m_speed m; m_events := m_events m;
          m_time := m_time m; m_config_speed := v;
          m_config_skipInactive := m_config_skipInactive m |},
       [StateChange None (Some (m_speed m))])
  | config_skipInactive b =>
      ({| m_player := m_player m; m_speed := m_speed m; m_events := m_events m;
          m_time := m_time m; m_config_speed := m_config_speed m;
          m_config_skipInactive := b |}, [])
  end.

Definition m_getMetaData (m : Machine) : playerMetaData :=
  match m_events m with
  | [] => {| startTime := NaN; endTime := NaN; totalTime := NaN |}
  | first :: _ =>
      let last := List.last (m_events m) first in
      {| startTime := timestamp first;
         endTime := timestamp last;
         totalTime := fsub (timestamp last) (timestamp first) |}
  end.

#[global] Instance Machine_Replayer : Replayer Machine := {
  replayer_play := m_play;
  replayer_pause := m_pause;
  replayer_setConfig := m_setConfig;
  replayer_getCurrentTime := m_time;
  replayer_getMetaData := m_getMetaData;
  service_state_value := m_player;
  speedService_state_value := m_speed;
  service_state_context_events := m_events;
  replayer_config_skipInactive := m_config_skipInactive
}.

Local Close Scope string_scope.

(** ** The component and its environment *)

(** The component's props and local variables.  [playerState] and
    [speedState] are undefined ([None]) until [onMount] runs; [timer] is
    an animation-frame handle or null; [finished] is undefined until it is
    first assigned, and only ever tested for truthiness, so undefined is
    kept as [false].  [meta] is read from the engine when the component is
    created. *)
Record Component : Type := {
  autoPlay : bool;
  skipInactive : bool;
  speed : number;
  tags : gmap string string;
  currentTime : number;
  timer : option Z;
  playerState : option PlayerValue;
  speedState : option SpeedValue;
  finished : bool;
  meta : playerMetaData
}.

(** The window's animation frames: the handles whose callback is still to
    run, and the last handle handed out.  Every callback of this component
    is the [update] closure of [loopTimer]. *)
Record Browser : Type := {
  frames : list Z;
  last_handle : Z
}.

(** The component, the engine it was handed, the window, whether the
    handlers of [onMount] are subscribed, and two logs: the calls made on
    the engine and the notifications received from it. *)
Record World (E : Type) : Type := {
  component : Component;
  replayer : E;
  browser : Browser;
  subscribed : bool;
  calls : list EngineCall;
  heard : list Notification
}.

Arguments component {E} _.
Arguments replayer {E} _.
Arguments browser {E} _.
Arguments subscribed {E} _.
Arguments calls {E} _.
Arguments heard {E} _.

Definition set_skipInactive (v : bool) (c : Component) : Component :=
  {| autoPlay := autoPlay c; skipInactive := v; speed := speed c;
     tags := tags c; currentTime := currentTime c; timer := timer c;
     playerState := playerState c; speedState := speedState c;
     finished := finished c; meta := meta c |}.

Definition set_speed (v : number) (c : Component) : Component :=
  {| autoPlay := autoPlay c; skipInactive := skipInactive c; speed := v;
     tags := tags c; currentTime := currentTime c; timer := timer c;
     playerState := playerState c; speedState := speedState c;
     finished := finished c; meta := meta c |}.

Definition set_currentTime (v : number) (c : Component) : Component :=
  {| autoPlay := autoPlay c; skipInactive := skipInactive c; speed := speed c;
     tags := tags c; currentTime := v; timer := timer c;
     playerState := playerState c; speedState := speedState c;
     finished := finished c; meta := meta c |}.

Definition set_timer (v : option Z) (c : Component) : Component :=
  {| autoPlay := autoPlay c; skipInactive := skipInactive c; speed := speed c;
     tags := tags c; currentTime := currentTime c; timer := v;
     playerState := playerState c; speedState := speedState c;
     finished := finished c; meta := meta c |}.

Definition set_playerState (v : option PlayerValue) (c : Component) : Component :=
  {| autoPlay := autoPlay c; skipInactive := skipInactive c; speed := speed c;
     tags := tags c; currentTime := currentTime c; timer := timer c;
     playerState := v; speedState := speedState c;
     finished := finished c; meta := meta c |}.

Definition set_speedState (v : option SpeedValue) (c : Component) : Component :=
  {| autoPlay := autoPlay c; skipInactive := skipInactive c; speed := speed c;
     tags := tags c; currentTime := currentTime c; timer := timer c;
     playerState := playerState c; speedState := v;
     finished := finished c; meta := meta c |}.

Definition set_finished (v : bool) (c : Component) : Component :=
  {| autoPlay := autoPlay c; skipInactive := skipInactive c; speed := speed c;
     tags := tags c; currentTime := currentTime c; timer := timer c;
     playerState := playerState c; speedState := speedState c;
     finished := v; meta := meta c |}.

Section Controller.

Context {E : Type} `{Replayer E}.

(** *** A state monad over the world *)

Definition M (A : Type) : Type := World E -> A * World E.

Definition ret {A : Type} (a : A) : M A := fun w => (a, w).

Definition bind {A B : Type} (m : M A) (k : A -> M B) : M B :=
  fun w => let (a, w') := m w in k a w'.

Notation "x <~ m ;> k" := (bind m (fun x => k))
  (at level 90, m at level 80, right associativity).
Notation "m ;> k" := (bind m (fun _ => k))
  (at level 90, right associativity).

Definition exec {A : Type} (m : M A) (w : World E) : World E := snd (m w).

Definition read {A : Type} (f : Component -> A) : M A :=
  fun w => (f (component w), w).

Definition assign (f : Component -> Component) : M unit :=
  fun w => (tt, {| component := f (component w); replayer := replayer w;
                   browser := browser w; subscribed := subscribed w;
                   calls := calls w; heard := heard w |}).

Definition when (b : bool) (m : M unit) : M unit := if b then m else ret tt.

(** *** The window *)

Definition requestAnimationFrame : M Z :=
  fun w =>
    let handle := (last_handle (browser w) + 1)%Z in
    (handle,
     {| component := component w; replayer := replayer w;
        browser := {| frames := frames (browser w) ++ [handle];
                      last_handle := handle |};
        subscribed := subscribed w; calls := calls w; heard := heard w |}).

Definition cancelAnimationFrame (handle : Z) : M unit :=
  fun w =>
    (tt,
     {| component := component w; replayer := replayer w;
        browser := {| frames := List.filter (fun h => negb (h =? handle)%Z)
                                            (frames (browser w));
                      last_handle := last_handle (browser w) |};
        subscribed := subscribed w; calls := calls w; heard := heard w |}).

(** *** The timer loop *)

(** [if (timer)]: null and the handle 0 are falsy. *)
Definition stopTimer : M unit :=
  t <~ read timer ;>
  match t with
  | Some h =>
      if negb (h =? 0)%Z
      then cancelAnimationFrame h ;> assign (set_timer None)
      else ret tt
  | None => ret tt
  end.

(** The [update] closure, run by the window for a pending frame. *)
Definition update : M unit :=
  fun w =>
    let now := replayer_getCurrentTime (replayer w) in
    (assign (set_currentTime now) ;>
     total <~ read (fun c => totalTime (meta c)) ;>
     if flt now total
     then (h <~ requestAnimationFrame ;> assign (set_timer (Some h)))
     else ret tt) w.

Definition loopTimer : M unit :=
  stopTimer ;>
  h <~ requestAnimationFrame ;>
  assign (set_timer (Some h)).

(** *** The handlers subscribed by [onMount] *)

Definition on_state_change (player : option PlayerValue)
    (speed_ : option SpeedValue) : M unit :=
  (match player with
   | Some value =>
       current <~ read playerState ;>
       if bool_decide (current <> Some value)
       then assign (set_playerState (Some value)) ;>
            match value with
            | playing => loopTimer
            | paused => stopTimer
            | live => ret tt
            end
       else ret tt
   | None => ret tt
   end) ;>
  (match speed_ with
   | Some value =>
       current <~ read speedState ;>
       when (bool_decide (current <> Some value))
            (assign (set_speedState (Some value)))
   | None => ret tt
   end).

Definition on_finish : M unit := assign (set_finished true).

(** The engine emits a notification: it is logged and handled, once the
    handlers are subscribed. *)
Definition deliver (n : Notification) : M unit :=
  fun w =>
    if subscribed w
    then (match n with
          | StateChange player speed_ => on_state_change player speed_
          | Finish => on_finish
          end)
           {| component := component w; replayer := replayer w;
              browser := browser w; subscribed := subscribed w;
              calls := calls w; heard := heard w ++ [n] |}
    else (tt, w).

Fixpoint deliver_all (ns : list Notification) : M unit :=
  match ns with
  | [] => ret tt
  | n :: ns' => deliver n ;> deliver_all ns'
  end.

(** A call on the engine: it is logged, the engine moves, and what it
    emitted meanwhile is handled before the call returns. *)
Definition engine_step (c : EngineCall) (e : E) : E * list Notification :=
  match c with
  | CallPlay timeOffset => replayer_play timeOffset e
  | CallPause => replayer_pause e
  | CallSetConfig config => replayer_setConfig config e
  end.

Definition engine_call (c : EngineCall) : M unit :=
  fun w =>
    let '(e', ns) := engine_step c (replayer w) in
    deliver_all ns
      {| component := component w; replayer := e'; browser := browser w;
         subscribed := subscribed w; calls := calls w ++ [c];
         heard := heard w |}.

(** *** The exported commands *)

Definition play : M unit :=
  state <~ read playerState ;>
  if bool_decide (state <> Some paused) then ret tt
  else
    fin <~ read finished ;>
    if fin
    then engine_call (CallPlay None) ;> assign (set_finished false)
    else (t <~ read currentTime ;> engine_call (CallPlay (Some t))).

Definition pause : M unit :=
  state <~ read playerState ;>
  if bool_decide (state <> Some playing) then ret tt
  else engine_call CallPause.

Definition toggle : M unit :=
  state <~ read playerState ;>
  match state with
  | Some playing => pause
  | Some paused => play
  | _ => ret tt
  end.

Definition goto (timeOffset : number) : M unit :=
  assign (set_currentTime timeOffset) ;>
  state <~ read playerState ;>
  let isPlaying := bool_decide (state = Some playing) in
  engine_call CallPause ;>
  engine_call (CallPlay (Some timeOffset)) ;>
  when (negb isPlaying) (engine_call CallPause).

(** The fraction of the track a click falls on, as [handleProgressClick]
    computes it from [event.clientX] and the track's bounding rectangle. *)
Definition click_percent (clientX rect_left rect_width : number) : number :=
  let x := fsub clientX rect_left in
  let percent := fdiv x rect_width in
  if flt percent (of_Z 0) then of_Z 0
  else if fgt percent (of_Z 1) then of_Z 1
  else percent.

Definition handleProgressClick (clientX rect_left rect_width : number) : M unit :=
  state <~ read speedState ;>
  if bool_decide (state = Some skipping) then ret tt
  else
    total <~ read (fun c => totalTime (meta c)) ;>
    let timeOffset := fmul total (click_percent clientX rect_left rect_width) in
    goto timeOffset.

Definition setSpeed (newSpeed : number) : M unit :=
  state <~ read playerState ;>
  let needFreeze := bool_decide (state = Some playing) in
  assign (set_speed newSpeed) ;>
  when needFreeze (engine_call CallPause) ;>
  engine_call (CallSetConfig (config_speed newSpeed)) ;>
  when needFreeze (t <~ read currentTime ;> engine_call (CallPlay (Some t))).

Definition toggleSkipInactive : M unit :=
  b <~ read skipInactive ;>
  assign (set_skipInactive (negb b)).

(** *** Life cycle *)

(** The component right after its script block ran, before [onMount]. *)
Definition created (auto skip : bool) (speed0 : number)
    (tags0 : gmap string string) (e : E) (handle0 : Z) : World E :=
  {| component :=
       {| autoPlay := auto; skipInactive := skip; speed := speed0;
          tags := tags0; currentTime := of_Z 0; timer := None;
          playerState := None; speedState := None; finished := false;
          meta := replayer_getMetaData e |};
     replayer := e;
     browser := {| frames := []; last_handle := handle0 |};
     subscribed := false;
     calls := [];
     heard := [] |}.

Definition onMount : M unit :=
  fun w =>
    (assign (set_playerState (Some (service_state_value (replayer w)))) ;>
     assign (set_speedState (Some (speedService_state_value (replayer w)))) ;>
     (fun w' => (tt, {| component := component w'; replayer := replayer w';
                        browser := browser w'; subscribed := true;
                        calls := calls w'; heard := heard w' |})) ;>
     auto <~ read autoPlay ;>
     when auto (engine_call (CallPlay None))) w.

Definition afterUpdate : M unit :=
  fun w =>
    (skip <~ read skipInactive ;>
     when (negb (Bool.eqb skip (replayer_config_skipInactive (replayer w))))
          (engine_call (CallSetConfig (config_skipInactive skip)))) w.

Definition onDestroy : M unit :=
  engine_call CallPause ;> stopTimer.

(** *** Runs of the component *)

(** What can happen to a mounted component: a command from the host or a
    button, a click on the progress bar, a render pass, a pending frame
    firing, the engine moving on its own and emitting notifications, and
    teardown. *)
Inductive action : Type :=
  | Toggle
  | Play
  | Pause
  | Goto (timeOffset : number)
  | ProgressClick (clientX rect_left rect_width : number)
  | SetSpeed (newSpeed : number)
  | ToggleSkipInactive
  | AfterUpdate
  | Frame (handle : Z)
  | Engine (e' : E) (ns : list Notification)
  | Destroy.

(** The window runs the callback of a pending frame, once. *)
Definition fire (handle : Z) : M unit :=
  fun w =>
    if existsb (fun h => (h =? handle)%Z) (frames (browser w))
    then (cancelAnimationFrame handle ;> update) w
    else (tt, w).

Definition engine_moves (e' : E) (ns : list Notification) : M unit :=
  fun w =>
    deliver_all ns
      {| component := component w; replayer := e'; browser := browser w;
         subscribed := subscribed w; calls := calls w; heard := heard w |}.

Definition perform (a : action) : M unit :=
  match a with
  | Toggle => toggle
  | Play => play
  | Pause => pause
  | Goto timeOffset => goto timeOffset
  | ProgressClick clientX rect_left rect_width => handleProgressClick clientX rect_left rect_width
  | SetSpeed newSpeed => setSpeed newSpeed
  | ToggleSkipInactive => toggleSkipInactive
  | AfterUpdate => afterUpdate
  | Frame handle => fire handle
  | Engine e' ns => engine_moves e' ns
  | Destroy => onDestroy
  end.

Definition run (acts : list action) (w : World E) : World E :=
  fold_left (fun w a => exec (perform a) w) acts w.

Inductive reachable : World E -> Prop :=
  | reachable_mount auto skip speed0 tags0 e handle0 :
      (0 <= handle0)%Z ->
      reachable (exec onMount (created auto skip speed0 tags0 e handle0))
  | reachable_step w a :
      reachable w -> reachable (exec (perform a) w).

(** *** Relations between the worlds before and after a step *)

(** [m] takes every world to an [R]-related one. *)
Definition respects (R : World E -> World E -> Prop) {A : Type} (m : M A)
  : Prop :=
  forall w, R w (snd (m w)).

(** What the timer functions and the state-change handler leave alone. *)
Definition handler_frame (w w' : World E) : Prop :=
  replayer w' = replayer w /\
  calls w' = calls w /\
  subscribed w' = subscribed w /\
  heard w' = heard w /\
  currentTime (component w') = currentTime (component w) /\
  meta (component w') = meta (component w) /\
  finished (component w') = finished (component w).

(** What receiving notifications leaves alone. *)
Definition notified (w w' : World E) : Prop :=
  replayer w' = replayer w /\
  calls w' = calls w /\
  subscribed w' = subscribed w /\
  currentTime (component w') = currentTime (component w) /\
  meta (component w') = meta (component w).

(** The notifications received during a step; unless 'finish' is among
    them, a cleared [finished] flag stays cleared. *)
Definition hears (w w' : World E) : Prop :=
  exists later,
    heard w' = heard w ++ later /\
    (Finish ∉ later -> finished (component w) = false ->
     finished (component w') = false).

(** The invariant of the timer loop: handles are positive, the only frame
    that can be pending is the one [timer] holds, and none is pending
    while the controller is paused. *)
Definition timer_invariant (w : World E) : Prop :=
  (0 <= last_handle (browser w))%Z /\
  (forall h, timer (component w) = Some h -> (0 < h)%Z) /\
  (frames (browser w) = [] \/
   exists h, frames (browser w) = [h] /\ timer (component w) = Some h) /\
  (playerState (component w) = Some paused ->
   frames (browser w) = [] /\ timer (component w) = None).

Definition keeps (P : World E -> Prop) (w w' : World E) : Prop :=
  P w -> P w'.

(** The timer loop is active when a frame of it is pending. *)
Definition timer_active (w : World E) : Prop := frames (browser w) <> [].

(** The controller mirrors the engine. *)
Definition mirrors (w : World E) : Prop :=
  subscribed w = true /\
  playerState (component w) = Some (service_state_value (replayer w)).

(** The player value last announced by a batch of notifications. *)
Definition announced (v : PlayerValue) (ns : list Notification) : PlayerValue :=
  fold_left (fun v n => match n with
                        | StateChange (Some p) _ => p
                        | _ => v
                        end) ns v.

(** The player machine as the spec describes it: pause takes playing to
    paused, play takes paused to playing, nothing else moves, and what the
    engine announces while a command runs ends with the state it is in. *)
Class PlayerMachine : Prop := {
  pause_value e :
    service_state_value (fst (replayer_pause e)) =
    match service_state_value e with playing => paused | v => v end;
  play_value o e :
    service_state_value (fst (replayer_play o e)) =
    match service_state_value e with paused => playing | v => v end;
  pause_announced e :
    announced (service_state_value e) (snd (replayer_pause e)) =
    service_state_value (fst (replayer_pause e));
  play_announced o e :
    announced (service_state_value e) (snd (replayer_play o e)) =
    service_state_value (fst (replayer_play o e))
}.

End Controller.

(** * Scenarios *)

Local Open Scope string_scope.

(** The marker position as the spec words it, to compare with
    [tag_position]: 100 * (tm - t0) / (t1 - t0), formatted to two
    decimals. *)
Definition spec_tag_position (t0 t1 tm : number) : string :=
  toFixed (fdiv (fmul (of_Z 100) (fsub tm t0)) (fsub t1 t0)) 2.

Definition event_at (t : Z) (d : eventData) : eventWithTime :=
  {| data := d; timestamp := of_Z t |}.

(** The log of the spec's scenario, with tags = {A: "red"}. *)
Definition scenario_log : list eventWithTime :=
  [event_at 0 (customEvent "A");
   event_at 500 fullSnapshotEvent;
   event_at 1000 (customEvent "B")].

Definition scenario_tags : gmap string string := {[ "A" := "red" ]}.

(** A log with a marker named like a member of [Object.prototype]. *)
Definition inherited_tag_log : list eventWithTime :=
  [event_at 0 (customEvent "constructor");
   event_at 1000 (customEvent "B")].

(** A session whose events all carry one timestamp. *)
Definition zero_duration_log : list eventWithTime :=
  [event_at 1000 (customEvent "A");
   event_at 1000 fullSnapshotEvent;
   event_at 1000 (customEvent "B")].

(** A twenty-second session with a marker 19 ms after its start. *)
Definition rounding_log : list eventWithTime :=
  [event_at 0 metaEvent;
   event_at 19 (customEvent "A");
   event_at 20000 fullSnapshotEvent].

Local Close Scope string_scope.

(** The number [eventPosition] that the inner [position] function renders
    with [toFixed(2)]. *)
Definition eventPosition (startTime endTime tagTime : number) : number :=
  let sessionDuration := fsub endTime startTime in
  let eventDuration := fsub endTime tagTime in
  fsub (of_Z 100) (fmul (fdiv eventDuration sessionDuration) (of_Z 100)).

(** A paused engine holding the scenario log, and the controller mounted
    on it. *)
Definition paused_machine : Machine :=
  {| m_player := paused; m_speed := normal; m_events := scenario_log;
     m_time := of_Z 0; m_config_speed := of_Z 1;
     m_config_skipInactive := false |}.

Definition mounted_world : World Machine :=
  exec onMount (created false false (of_Z 1) scenario_tags paused_machine 0).

(** * Properties of the number model *)

Local Open Scope N_scope.

(** ** Rounding to the nearest integer *)

Lemma rne_bounds n d :
  0 < d -> 2 * (rne n d * d) <= 2 * n + d /\ 2 * n <= 2 * (rne n d * d) + d.
Proof.
  intros Hd. unfold rne.
  pose proof (N.div_mod n d ltac:(lia)) as Hn.
  pose proof (N.mod_lt n d ltac:(lia)) as Hr.
  destruct (N.compare_spec (2 * (n mod d)) d) as [Heq|Hlt|Hgt];
    [destruct (N.even (n / d))| |];
    generalize dependent (n / d); generalize dependent (n mod d);
    intros r Hr q Hn; intros; nia.
Qed.

Lemma rne_mono n1 n2 d : 0 < d -> n1 <= n2 -> rne n1 d <= rne n2 d.
Proof.
  intros Hd Hle.
  destruct (N.eq_dec n1 n2) as [->|Hne]; [lia|].
  destruct (rne_bounds n1 d Hd) as [H1 _].
  destruct (rne_bounds n2 d Hd) as [_ H2].
  destruct (N.le_gt_cases (rne n1 d) (rne n2 d)) as [|Hgt]; [assumption|].
  exfalso. nia.
Qed.

Lemma rne_le_of_lt n d b : 0 < d -> n < b * d -> rne n d <= b.
Proof.
  intros Hd Hlt. destruct (rne_bounds n d Hd) as [H1 _].
  destruct (N.le_gt_cases (rne n d) b); [assumption|exfalso; nia].
Qed.

Lemma rne_ge_of_le n d b : 0 < d -> b * d <= n -> b <= rne n d.
Proof.
  intros Hd Hle. destruct (rne_bounds n d Hd) as [_ H1].
  destruct (N.le_gt_cases b (rne n d)); [assumption|exfalso; nia].
Qed.

Lemma pow2_pos k : 0 < 2 ^ k.
Proof. apply N.neq_0_lt_0, N.pow_nonzero. lia. Qed.

(** ** Rounding to a double *)

(** A magnitude below 2^(53+sh) rounds to at most 2^(53+sh). *)
Lemma round_mag_upper n d :
  0 < d -> round_mag n d <= 2 ^ (53 + (N.log2 (n / d) - 52)).
Proof.
  intros Hd. unfold round_mag.
  remember (N.log2 (n / d) - 52) as sh eqn:Hsh.
  assert (Hq : n / d < 2 ^ (53 + sh)).
  { destruct (N.eq_dec (n / d) 0) as [->|Hne]; [apply pow2_pos|].
    apply N.log2_lt_pow2; [apply N.neq_0_lt_0; exact Hne|]. lia. }
  pose proof (pow2_pos sh) as Hp.
  rewrite N.pow_add_r in *.
  assert (Hn : n < 2 ^ 53 * (d * 2 ^ sh)).
  { pose proof (N.div_mod n d ltac:(lia)) as Hn.
    pose proof (N.mod_lt n d ltac:(lia)) as Hr.
    clear Hsh.
    generalize dependent (n / d); generalize dependent (n mod d).
    generalize dependent (2 ^ sh). intros. nia. }
  pose proof (rne_le_of_lt n (d * 2 ^ sh) (2 ^ 53) ltac:(nia) Hn) as Hle.
  nia.
Qed.

(** A magnitude of more than 53 bits keeps its leading bit. *)
Lemma round_mag_lower n d :
  0 < d -> 0 < N.log2 (n / d) - 52 ->
  2 ^ (52 + (N.log2 (n / d) - 52)) <= round_mag n d.
Proof.
  intros Hd Hpos. unfold round_mag.
  remember (N.log2 (n / d) - 52) as sh eqn:Hsh.
  assert (Hq : 2 ^ (52 + sh) <= n / d).
  { replace (52 + sh) with (N.log2 (n / d)) by lia.
    apply N.log2_spec. destruct (N.eq_dec (n / d) 0) as [Hz|Hnz];
      [|apply N.neq_0_lt_0; exact Hnz].
    rewrite Hz in Hsh. cbn in Hsh. lia. }
  pose proof (pow2_pos sh) as Hp.
  rewrite N.pow_add_r in *.
  assert (Hn : 2 ^ 52 * (d * 2 ^ sh) <= n).
  { pose proof (N.div_mod n d ltac:(lia)) as Hn.
    clear Hsh.
    generalize dependent (n / d); generalize dependent (n mod d).
    generalize dependent (2 ^ sh). intros. nia. }
  pose proof (rne_ge_of_le n (d * 2 ^ sh) (2 ^ 52) ltac:(nia) Hn) as Hle.
  nia.
Qed.

(** Rounding is monotone: within one binade by [rne_mono], across
    binades because a rounded magnitude never leaves its binade's closure. *)
Lemma round_mag_mono n1 n2 d :
  0 < d -> n1 <= n2 -> round_mag n1 d <= round_mag n2 d.
Proof.
  intros Hd Hle.
  assert (Hq : n1 / d <= n2 / d) by (apply N.Div0.div_le_mono; lia).
  assert (Hl : N.log2 (n1 / d) <= N.log2 (n2 / d))
    by (apply N.log2_le_mono; exact Hq).
  destruct (N.eq_dec (N.log2 (n1 / d) - 52) (N.log2 (n2 / d) - 52))
    as [Heq|Hne].
  - unfold round_mag. rewrite Heq.
    set (sh := N.log2 (n2 / d) - 52).
    pose proof (pow2_pos sh).
    apply N.mul_le_mono_r. apply rne_mono; [nia|assumption].
  - assert (Hlt : N.log2 (n1 / d) - 52 < N.log2 (n2 / d) - 52) by lia.
    pose proof (round_mag_upper n1 d Hd) as Hu.
    pose proof (round_mag_lower n2 d Hd ltac:(lia)) as Hlo.
    etransitivity; [exact Hu|]. etransitivity; [|exact Hlo].
    apply N.pow_le_mono_r; lia.
Qed.

Lemma round_mag_0 d : 0 < d -> round_mag 0 d = 0.
Proof.
  intros Hd. unfold round_mag. rewrite N.Div0.div_0_l by lia.
  cbn [N.log2 N.sub].
  change (2 ^ 0) with 1. rewrite !N.mul_1_r. unfold rne.
  rewrite N.Div0.div_0_l, N.Div0.mod_0_l by lia.
  destruct (N.compare_spec (2 * 0) d); lia.
Qed.

(** r / r is exactly 1. *)
Lemma round_mag_self r : 0 < r -> round_mag (r * unit_scale) r = unit_scale.
Proof.
  intros Hr. unfold round_mag.
  replace (r * unit_scale / r) with unit_scale
    by (rewrite N.mul_comm, N.div_mul; lia).
  replace (N.log2 unit_scale - 52) with 1022 by (vm_compute; reflexivity).
  pose proof (pow2_pos 1022).
  replace (r * unit_scale) with (2 ^ 52 * (r * 2 ^ 1022)).
  2:{ replace unit_scale with (2 ^ 52 * 2 ^ 1022) by (vm_compute; reflexivity).
      lia. }
  unfold rne.
  rewrite N.div_mul, N.Div0.mod_mul by nia.
  destruct (N.compare_spec (2 * 0) (r * 2 ^ 1022)); try nia.
  vm_compute; reflexivity.
Qed.

(** A non-zero integer number of units never rounds to zero. *)
Lemma round_mag_pos n : 0 < n -> 0 < round_mag n 1.
Proof.
  intros Hn.
  destruct (N.eq_dec (N.log2 (n / 1) - 52) 0) as [Hz|Hnz].
  - unfold round_mag. rewrite Hz. change (2 ^ 0) with 1. rewrite !N.mul_1_r.
    unfold rne. rewrite N.div_1_r, N.mod_1_r.
    change (2 * 0 ?= 1) with Lt. exact Hn.
  - pose proof (round_mag_lower n 1 ltac:(lia)
                  ltac:(apply N.neq_0_lt_0; exact Hnz)) as Hlo.
    eapply N.lt_le_trans; [apply pow2_pos|exact Hlo].
Qed.

(** ** Agreement with the Standard Library's binary64 operations *)

(** The operations above are the exact result rounded once; on the numbers
    of the scenarios they return what the Standard Library's executable
    IEEE-754 specification computes. *)
Example scenario_numbers_are_doubles :
  forallb is_double
    [of_Z 0; of_Z 1; of_Z 19; of_Z 100; of_Z 500; of_Z 1000; of_Z 19981;
     of_Z 20000; fdiv (of_Z 19981) (of_Z 20000);
     fmul (fdiv (of_Z 19981) (of_Z 20000)) (of_Z 100)] = true.
Proof. vm_compute. reflexivity. Qed.

Example fsub_agrees_binary64 :
  to_SF (fsub (of_Z 20000) (of_Z 19)) =
  SFsub 53 1024 (to_SF (of_Z 20000)) (to_SF (of_Z 19)).
Proof. vm_compute. reflexivity. Qed.

Example fdiv_agrees_binary64 :
  to_SF (fdiv (of_Z 19981) (of_Z 20000)) =
  SFdiv 53 1024 (to_SF (of_Z 19981)) (to_SF (of_Z 20000)).
Proof. vm_compute. reflexivity. Qed.

Example fmul_agrees_binary64 :
  to_SF (fmul (fdiv (of_Z 19981) (of_Z 20000)) (of_Z 100)) =
  SFmul 53 1024 (to_SF (fdiv (of_Z 19981) (of_Z 20000))) (to_SF (of_Z 100)).
Proof. vm_compute. reflexivity. Qed.

Example position_agrees_binary64 :
  to_SF (fsub (of_Z 100)
           (fmul (fdiv (fsub (of_Z 20000) (of_Z 19))
                       (fsub (of_Z 20000) (of_Z 0))) (of_Z 100))) =
  SFsub 53 1024 (to_SF (of_Z 100))
    (SFmul 53 1024
       (SFdiv 53 1024
          (SFsub 53 1024 (to_SF (of_Z 20000)) (to_SF (of_Z 19)))
          (SFsub 53 1024 (to_SF (of_Z 20000)) (to_SF (of_Z 0))))
       (to_SF (of_Z 100))).
Proof. vm_compute. reflexivity. Qed.

Example division_by_zero_agrees_binary64 :
  to_SF (fdiv (of_Z 0) (of_Z 0)) =
    SFdiv 53 1024 (to_SF (of_Z 0)) (to_SF (of_Z 0)) /\
  to_SF (fdiv (of_Z 5) (of_Z 0)) =
    SFdiv 53 1024 (to_SF (of_Z 5)) (to_SF (of_Z 0)).
Proof. vm_compute. split; reflexivity. Qed.

Example thirds_agree_binary64 :
  to_SF (fdiv (of_Z 1) (of_Z 3)) =
    SFdiv 53 1024 (to_SF (of_Z 1)) (to_SF (of_Z 3)) /\
  to_SF (fdiv (of_Z (-2)) (of_Z 3)) =
    SFdiv 53 1024 (to_SF (of_Z (-2))) (to_SF (of_Z 3)).
Proof. vm_compute. split; reflexivity. Qed.

(** ** Constants and order *)

Lemma of_Z_0 : of_Z 0 = Finite false 0.
Proof. vm_compute; reflexivity. Qed.

Lemma of_Z_1 : of_Z 1 = Finite false unit_scale.
Proof. vm_compute; reflexivity. Qed.

Lemma of_Z_100 : of_Z 100 = Finite false (100 * unit_scale).
Proof. vm_compute; reflexivity. Qed.

Lemma unit_scale_pos : 0 < unit_scale.
Proof. apply pow2_pos. Qed.

Lemma overflow_threshold_pos : 0 < overflow_threshold.
Proof. apply pow2_pos. Qed.

Lemma unit_scale_finite : unit_scale < overflow_threshold.
Proof. apply N.pow_lt_mono_r; lia. Qed.

(** Rounding preserves the order of signed magnitudes. *)
Lemma fle_round_mono s1 s2 n1 n2 d :
  0 < d -> (signed s1 n1 <= signed s2 n2)%Z ->
  fle (round s1 n1 d) (round s2 n2 d) = true.
Proof.
  intros Hd Hle. unfold round.
  pose proof overflow_threshold_pos as HT.
  assert (Hm : forall a b, a <= b -> round_mag a d <= round_mag b d)
    by (intros; apply round_mag_mono; assumption).
  pose proof (round_mag_0 d Hd) as H0.
  destruct s1, s2; unfold signed in Hle.
  - specialize (Hm n2 n1 ltac:(lia)).
    destruct (N.ltb_spec (round_mag n1 d) overflow_threshold),
             (N.ltb_spec (round_mag n2 d) overflow_threshold);
      unfold fle; cbn; try reflexivity; lia.
  - destruct (N.ltb_spec (round_mag n1 d) overflow_threshold),
             (N.ltb_spec (round_mag n2 d) overflow_threshold);
      unfold fle; cbn; try reflexivity; lia.
  - assert (n1 = 0) by lia. assert (n2 = 0) by lia. subst. rewrite H0.
    destruct (N.ltb_spec 0 overflow_threshold); [|lia]. reflexivity.
  - specialize (Hm n1 n2 ltac:(lia)).
    destruct (N.ltb_spec (round_mag n1 d) overflow_threshold),
             (N.ltb_spec (round_mag n2 d) overflow_threshold);
      unfold fle; cbn; try reflexivity; lia.
Qed.

Lemma round_not_NaN s n d : val (round s n d) <> None.
Proof.
  unfold round. destruct (round_mag n d <? overflow_threshold), s; discriminate.
Qed.

Lemma fle_MInf x : val x <> None -> fle (Infinity true) x = true.
Proof. unfold fle. cbn. destruct (val x); [reflexivity|congruence]. Qed.

Lemma fle_PInf x : val x <> None -> fle x (Infinity false) = true.
Proof.
  unfold fle. cbn. destruct (val x) as [[]|]; [reflexivity..|congruence].
Qed.

(** Dividing by a positive finite number is monotone. *)
Lemma fdiv_mono c1 c2 d :
  0 < d -> fle c1 c2 = true ->
  fle (fdiv c1 (Finite false d)) (fdiv c2 (Finite false d)) = true.
Proof.
  intros Hd Hle.
  destruct c1 as [|s1|s1 u1], c2 as [|s2|s2 u2];
    try (destruct s1; discriminate Hle); try (destruct s2; discriminate Hle);
    try discriminate Hle.
  - destruct s1, s2; try discriminate Hle; reflexivity.
  - destruct s1; [|discriminate Hle]. cbn [fdiv].
    destruct (N.eqb_spec d 0); [lia|]. apply fle_MInf, round_not_NaN.
  - destruct s2; [destruct s1; discriminate Hle|]. cbn [fdiv].
    destruct (N.eqb_spec d 0); [lia|]. apply fle_PInf, round_not_NaN.
  - cbn [fdiv]. destruct (N.eqb_spec d 0); [lia|].
    rewrite !xorb_false_r. apply fle_round_mono; [assumption|].
    unfold fle in Hle. cbn in Hle. apply Z.leb_le in Hle.
    pose proof unit_scale_pos.
    destruct s1, s2; unfold signed in *; nia.
Qed.

(** Multiplying by a positive finite number is monotone. *)
Lemma fmul_mono h p1 p2 :
  0 < h -> fle p1 p2 = true ->
  fle (fmul (Finite false h) p1) (fmul (Finite false h) p2) = true.
Proof.
  intros Hh Hle.
  destruct p1 as [|s1|s1 u1], p2 as [|s2|s2 u2];
    try (destruct s1; discriminate Hle); try (destruct s2; discriminate Hle);
    try discriminate Hle; cbn [fmul xorb];
    try (destruct (N.eqb_spec h 0); [lia|]).
  - destruct s1, s2; try discriminate Hle; reflexivity.
  - destruct s1; [|discriminate Hle]. apply fle_MInf, round_not_NaN.
  - destruct s2; [destruct s1; discriminate Hle|].
    apply fle_PInf, round_not_NaN.
  - apply fle_round_mono; [apply unit_scale_pos|].
    unfold fle in Hle. cbn in Hle. apply Z.leb_le in Hle.
    destruct s1, s2; unfold signed in *; nia.
Qed.

(** [Math.min(1, .)] is monotone. *)
Lemma Math_min_1 a :
  Math_min (of_Z 1) a =
  match a with NaN => NaN | _ => if flt (of_Z 1) a then of_Z 1 else a end.
Proof.
  rewrite of_Z_1. destruct a as [|s|s u]; try reflexivity.
  - destruct s; reflexivity.
  - unfold Math_min.
    destruct (flt (Finite false unit_scale) (Finite s u)); [reflexivity|].
    destruct (flt (Finite s u) (Finite false unit_scale)); reflexivity.
Qed.

Lemma Math_min_1_mono a b :
  fle a b = true -> fle (Math_min (of_Z 1) a) (Math_min (of_Z 1) b) = true.
Proof.
  intros Hle. rewrite !Math_min_1, of_Z_1.
  pose proof unit_scale_pos as Hs.
  destruct a as [|sa|sa ua], b as [|sb|sb ub];
    try (destruct sa; discriminate Hle); try (destruct sb; discriminate Hle);
    try discriminate Hle.
  - destruct sa, sb; try discriminate Hle; reflexivity.
  - destruct sa; [|discriminate Hle]. unfold flt, fle. cbn.
    destruct (Z.ltb_spec (Z.of_N unit_scale) (signed sb ub)); cbn;
      reflexivity.
  - destruct sb; [destruct sa; discriminate Hle|]. unfold flt, fle. cbn.
    destruct (Z.ltb_spec (Z.of_N unit_scale) (signed sa ua)); cbn;
      [apply Z.leb_le; lia|apply Z.leb_le; lia].
  - unfold fle in Hle. cbn in Hle. apply Z.leb_le in Hle.
    unfold flt, fle. cbn.
    destruct (Z.ltb_spec (Z.of_N unit_scale) (signed sa ua)),
             (Z.ltb_spec (Z.of_N unit_scale) (signed sb ub)); cbn;
      apply Z.leb_le; lia.
Qed.

Lemma positive_finite total :
  is_finite total = true -> flt (of_Z 0) total = true ->
  exists d, 0 < d /\ total = Finite false d.
Proof.
  intros Hfin Hpos. destruct total as [|s|s d]; try discriminate Hfin.
  rewrite of_Z_0 in Hpos. unfold flt in Hpos. cbn in Hpos.
  apply Z.ltb_lt in Hpos. destruct s; unfold signed in Hpos; [lia|].
  exists d. split; [lia|reflexivity].
Qed.

(** * The progress percentage *)

(** C8.  For a fixed finite totalDuration > 0 the progress fraction is
    Math.min(1, currentTime / totalDuration) and never decreases when
    currentTime increases; neither does the number 100 * fraction that the
    percentage string prints. *)
Theorem percentage_monotone total c1 c2 :
  is_finite total = true ->
  flt (of_Z 0) total = true ->
  fle c1 c2 = true ->
  percent c1 total = Math_min (of_Z 1) (fdiv c1 total) /\
  percentage c1 total = Number_toString (percentage_value c1 total) +:+ "%" /\
  fle (percent c1 total) (percent c2 total) = true /\
  fle (percentage_value c1 total) (percentage_value c2 total) = true.
Proof.
  intros Hfin Hpos Hle.
  destruct (positive_finite total Hfin Hpos) as (d & Hd & ->).
  assert (Hp : fle (percent c1 (Finite false d)) (percent c2 (Finite false d))
               = true).
  { unfold percent. apply Math_min_1_mono, fdiv_mono; assumption. }
  repeat split; try assumption.
  unfold percentage_value. rewrite of_Z_100.
  apply fmul_mono; [|exact Hp].
  pose proof unit_scale_pos. lia.
Qed.

Lemma percentage_monotone_witness :
  fle (percent (of_Z 250) (of_Z 1000)) (percent (of_Z 500) (of_Z 1000)) = true.
Proof.
  apply (percentage_monotone (of_Z 1000) (of_Z 250) (of_Z 500));
    vm_compute; reflexivity.
Defined.

(** * Custom markers on the timeline *)

(** The marker pushed for a custom event. *)
Lemma elem_of_push_custom start end_ tags events acc m :
  m ∈ fold_left (push_custom start end_ tags) events acc <->
  m ∈ acc \/
  exists event tag,
    event ∈ events /\ data event = customEvent tag /\
    m = {| name := tag;
           background := tag_background tags tag;
           position := tag_position start end_ (timestamp event) +:+ "%" |}.
Proof.
  revert acc. induction events as [|e es IH]; intros acc; cbn [fold_left].
  - split; [auto|]. intros [Hin|(event & tag & Hin & _)]; [assumption|].
    inversion Hin.
  - rewrite IH. unfold push_custom. split.
    + intros [Hin|(event & tag & Hin & Hd & ->)].
      * destruct (data e) as [| | | | |tag|] eqn:Hd; auto.
        apply elem_of_app in Hin as [Hin|Hin]; [auto|].
        apply list_elem_of_singleton in Hin as ->.
        right. exists e, tag. split; [left|auto].
      * right. exists event, tag. split; [right; assumption|auto].
    + intros [Hin|(event & tag & Hin & Hd & ->)].
      * left. destruct (data e); auto. apply elem_of_app. auto.
      * apply elem_of_cons in Hin as [->|Hin].
        -- left. rewrite Hd. apply elem_of_app. right. left.
        -- right. exists event, tag. auto.
Qed.

Lemma elem_of_customEvents first rest tags m :
  exists markers,
    customEvents (first :: rest) tags = Some markers /\
    (m ∈ markers <->
     exists event tag,
       event ∈ first :: rest /\ data event = customEvent tag /\
       m = {| name := tag;
              background := tag_background tags tag;
              position :=
                tag_position (timestamp first)
                  (timestamp (List.last (first :: rest) first))
                  (timestamp event) +:+ "%" |}).
Proof.
  eexists. split; [reflexivity|]. rewrite elem_of_push_custom.
  split; [intros [Hin|?]; [inversion Hin|assumption]|auto].
Qed.

Lemma fsub_self_zero s u : fsub (Finite s u) (Finite s u) = Finite false 0.
Proof.
  unfold fsub. rewrite Z.sub_diag. cbn [Z.eqb]. destruct s; reflexivity.
Qed.

(** Dividing by a zero gives NaN or an infinity. *)
Lemma fdiv_zero x s :
  fdiv x (Finite s 0) = NaN \/ exists b, fdiv x (Finite s 0) = Infinity b.
Proof.
  destruct x as [|sx|sx ux]; cbn [fdiv]; eauto.
  change (0 =? 0) with true. cbv beta iota. destruct (ux =? 0); eauto.
Qed.

Lemma position_of_NaN_or_Infinity p :
  p = NaN \/ (exists b, p = Infinity b) ->
  let s := toFixed (fsub (of_Z 100) (fmul p (of_Z 100))) 2 in
  (p = NaN -> s = "NaN"%string) /\
  (s = "NaN" \/ s = "-Infinity" \/ s = "Infinity")%string.
Proof.
  rewrite of_Z_100.
  intros [->|[b ->]]; cbn [fmul fsub].
  - split; [reflexivity|left; reflexivity].
  - destruct (N.eqb_spec (100 * unit_scale) 0) as [Hz|_].
    { pose proof unit_scale_pos. lia. }
    split; [discriminate|]. destruct b; cbn; auto.
Qed.

(** With a zero session duration every tag position is NaN or infinite. *)
Lemma tag_position_zero_duration t tagTime :
  let s := tag_position t t tagTime in
  (tagTime = t -> s = "NaN"%string) /\
  (s = "NaN" \/ s = "-Infinity" \/ s = "Infinity")%string.
Proof.
  unfold tag_position.
  assert (Hq : forall x, fdiv x (fsub t t) = NaN \/
                         exists b, fdiv x (fsub t t) = Infinity b).
  { intros x. destruct t as [|s|s u].
    - left. destruct x; reflexivity.
    - left. cbn [fsub]. rewrite eqb_reflx. destruct x; reflexivity.
    - rewrite fsub_self_zero. apply fdiv_zero. }
  assert (Hself : fdiv (fsub t t) (fsub t t) = NaN).
  { destruct t as [|s|s u]; [reflexivity| |].
    - cbn [fsub]. rewrite eqb_reflx. reflexivity.
    - rewrite fsub_self_zero. reflexivity. }
  destruct (position_of_NaN_or_Infinity _ (Hq (fsub t tagTime))) as [_ H2].
  split; [|exact H2].
  intros ->. rewrite Hself. reflexivity.
Qed.

(** A positive finite session duration. *)
Lemma session_duration_form t0 t1 :
  flt t0 t1 = true -> is_finite (fsub t1 t0) = true ->
  exists r, 0 < r /\ fsub t1 t0 = Finite false r /\
            fsub t1 t1 = Finite false 0.
Proof.
  intros Hlt Hfin.
  destruct t1 as [|s1|s1 u1], t0 as [|s0|s0 u0]; try discriminate Hfin;
    try (destruct s1, s0; discriminate Hfin).
  unfold flt in Hlt. cbn in Hlt. apply Z.ltb_lt in Hlt.
  rewrite fsub_self_zero.
  unfold fsub in *.
  destruct (Z.eqb_spec (signed s1 u1 - signed s0 u0) 0) as [Hz|Hnz]; [lia|].
  destruct (Z.ltb_spec (signed s1 u1 - signed s0 u0) 0) as [|_]; [lia|].
  unfold round in *.
  destruct (round_mag (Z.abs_N (signed s1 u1 - signed s0 u0)) 1
            <? overflow_threshold); [|discriminate Hfin].
  eexists. split; [|split; reflexivity].
  apply round_mag_pos. lia.
Qed.

Lemma position_of_one :
  toFixed (fsub (of_Z 100) (fmul (of_Z 1) (of_Z 100))) 2 = "0.00"%string.
Proof. vm_compute; reflexivity. Qed.

Lemma position_of_zero :
  toFixed (fsub (of_Z 100) (fmul (of_Z 0) (of_Z 100))) 2 = "100.00"%string.
Proof. vm_compute; reflexivity. Qed.

Lemma fdiv_self r :
  0 < r -> fdiv (Finite false r) (Finite false r) = of_Z 1.
Proof.
  intros Hr. cbn [fdiv xorb]. destruct (N.eqb_spec r 0); [lia|].
  unfold round. rewrite round_mag_self by assumption.
  pose proof unit_scale_finite as Hf. apply N.ltb_lt in Hf. rewrite Hf.
  symmetry. apply of_Z_1.
Qed.

Lemma fdiv_zero_l r : 0 < r ->
  fdiv (Finite false 0) (Finite false r) = of_Z 0.
Proof.
  intros Hr. cbn [fdiv xorb]. destruct (N.eqb_spec r 0); [lia|].
  unfold round. rewrite N.mul_0_l, round_mag_0 by assumption.
  pose proof overflow_threshold_pos as Hf. apply N.ltb_lt in Hf. rewrite Hf.
  symmetry. apply of_Z_0.
Qed.

Lemma tag_position_boundaries t0 t1 :
  flt t0 t1 = true -> is_finite (fsub t1 t0) = true ->
  tag_position t0 t1 t0 = "0.00"%string /\
  tag_position t0 t1 t1 = "100.00"%string.
Proof.
  intros Hlt Hfin.
  destruct (session_duration_form t0 t1 Hlt Hfin) as (r & Hr & Hsd & Hself).
  unfold tag_position. rewrite Hself, Hsd. split.
  - rewrite fdiv_self by assumption. apply position_of_one.
  - rewrite fdiv_zero_l by assumption. apply position_of_zero.
Qed.

Local Open Scope string_scope.

(** C9 (as stated, refuted).  On the scenario log with tags = {A: "red"}
    the result is not the list the claim gives: the default colour of
    marker B is written with spaces, "rgb(73, 80, 246)". *)
Lemma scenario_customEvents_counterexample :
  customEvents scenario_log scenario_tags <>
  Some [ {| name := "A"; background := "red"; position := "0.00%" |};
         {| name := "B"; background := "rgb(73,80,246)";
            position := "100.00%" |} ].
Proof. vm_compute. discriminate. Qed.

(** C9 (amended).  On the scenario log with tags = {A: "red"} the
    customEvents computation returns exactly the markers A (red, 0.00%)
    and B (the default colour "rgb(73, 80, 246)", 100.00%), in log order. *)
Theorem scenario_customEvents :
  customEvents scenario_log scenario_tags =
  Some [ {| name := "A"; background := "red"; position := "0.00%" |};
         {| name := "B"; background := "rgb(73, 80, 246)";
            position := "100.00%" |} ].
Proof. vm_compute. reflexivity. Qed.

(** C2 (as stated, refuted).  In a log whose events all carry the
    timestamp 1000 the markers are placed at "NaN%", not at "0.00%". *)
Lemma zero_duration_counterexample :
  Forall (fun event => timestamp event = of_Z 1000) zero_duration_log /\
  customEvents zero_duration_log ∅ =
  Some [ {| name := "A"; background := "rgb(73, 80, 246)";
            position := "NaN%" |};
         {| name := "B"; background := "rgb(73, 80, 246)";
            position := "NaN%" |} ] /\
  customEvents zero_duration_log ∅ <>
  Some [ {| name := "A"; background := "rgb(73, 80, 246)";
            position := "0.00%" |};
         {| name := "B"; background := "rgb(73, 80, 246)";
            position := "0.00%" |} ].
Proof.
  split; [repeat constructor|].
  split; [vm_compute; reflexivity|vm_compute; discriminate].
Qed.

(** C2 (amended).  For every log whose first and last events share the
    same timestamp the customEvents computation does not fail: it returns
    a marker for every custom event, each placed at "NaN%", "-Infinity%"
    or "Infinity%" (the division by the zero duration), and a marker whose
    event carries the shared timestamp is placed at "NaN%". *)
Theorem zero_duration_markers first rest tags :
  timestamp (List.last (first :: rest) first) = timestamp first ->
  exists markers,
    customEvents (first :: rest) tags = Some markers /\
    (forall m, m ∈ markers ->
       position m = "NaN%" \/ position m = "-Infinity%" \/
       position m = "Infinity%") /\
    (forall event tag,
       event ∈ first :: rest -> data event = customEvent tag ->
       timestamp event = timestamp first ->
       {| name := tag; background := tag_background tags tag;
          position := "NaN%" |} ∈ markers).
Proof.
  intros Hsame. eexists. split; [reflexivity|].
  cbv beta iota zeta. rewrite Hsame. split.
  - intros m Hin. apply elem_of_push_custom in Hin
      as [Hin|(event & tag & _ & _ & ->)]; [inversion Hin|].
    cbn [position].
    destruct (tag_position_zero_duration (timestamp first) (timestamp event))
      as [_ Hcases]. cbv zeta in Hcases.
    destruct Hcases as [-> | [-> | ->]]; auto.
  - intros event tag Hin Hd Ht. apply elem_of_push_custom. right.
    exists event, tag. split; [assumption|]. split; [assumption|].
    destruct (tag_position_zero_duration (timestamp first) (timestamp event))
      as [HNaN _]. cbv zeta in HNaN. rewrite (HNaN Ht). reflexivity.
Qed.

Lemma zero_duration_markers_witness :
  exists markers,
    customEvents zero_duration_log ∅ = Some markers /\
    {| name := "B"; background := tag_background ∅ "B";
       position := "NaN%" |} ∈ markers.
Proof.
  destruct (zero_duration_markers (event_at 1000 (customEvent "A"))
              [event_at 1000 fullSnapshotEvent;
               event_at 1000 (customEvent "B")] ∅)
    as (markers & Hc & _ & Hin); [reflexivity|].
  exists markers. split; [exact Hc|].
  apply (Hin (event_at 1000 (customEvent "B")) "B");
    [right; right; left|reflexivity|reflexivity].
Defined.

(** C3 (as stated, refuted).  In a session from 0 to 20000 a marker at 19
    is placed at "0.09%", although 100 * 19 / 20000 = 0.095 is "0.10" to
    two decimals, computed in doubles or exactly. *)
Lemma marker_rounding_counterexample :
  flt (of_Z 0) (of_Z 20000) = true /\
  fle (of_Z 0) (of_Z 19) = true /\ fle (of_Z 19) (of_Z 20000) = true /\
  customEvents rounding_log ∅ =
  Some [ {| name := "A"; background := "rgb(73, 80, 246)";
            position := "0.09%" |} ] /\
  spec_tag_position (of_Z 0) (of_Z 20000) (of_Z 19) = "0.10" /\
  rne (100 * (100 * 19)) 20000 = 10%N.
Proof. repeat split; vm_compute; reflexivity. Qed.

(** C3 (amended).  For a log from t0 to t1 with t0 < t1 and a finite
    duration, the position of a custom marker at tm is the toFixed(2)
    rendering of the double 100 - ((t1 - tm) / (t1 - t0)) * 100 followed
    by '%'; a marker at tm = t0 yields "0.00%" and a marker at tm = t1
    yields "100.00%". *)
Theorem marker_position_boundaries first rest tags t0 t1 :
  t0 = timestamp first ->
  t1 = timestamp (List.last (first :: rest) first) ->
  flt t0 t1 = true ->
  is_finite (fsub t1 t0) = true ->
  exists markers,
    customEvents (first :: rest) tags = Some markers /\
    (forall m,
       m ∈ markers <->
       exists event tag,
         event ∈ first :: rest /\ data event = customEvent tag /\
         m = {| name := tag; background := tag_background tags tag;
                position :=
                  toFixed
                    (fsub (of_Z 100)
                       (fmul (fdiv (fsub t1 (timestamp event)) (fsub t1 t0))
                          (of_Z 100))) 2 +:+ "%" |}) /\
    (forall event tag,
       event ∈ first :: rest -> data event = customEvent tag ->
       (timestamp event = t0 ->
        {| name := tag; background := tag_background tags tag;
           position := "0.00%" |} ∈ markers) /\
       (timestamp event = t1 ->
        {| name := tag; background := tag_background tags tag;
           position := "100.00%" |} ∈ markers)).
Proof.
  intros -> -> Hlt Hfin.
  destruct (tag_position_boundaries _ _ Hlt Hfin) as [Hstart Hend].
  eexists. split; [reflexivity|]. cbv beta iota zeta. split.
  - intros m. rewrite elem_of_push_custom. unfold tag_position.
    split; [intros [Hin|?]; [inversion Hin|assumption]|auto].
  - intros event tag Hin Hd. split; intros Ht; apply elem_of_push_custom;
      right; exists event, tag; (split; [assumption|]);
      (split; [assumption|]); rewrite Ht.
    + rewrite Hstart. reflexivity.
    + rewrite Hend. reflexivity.
Qed.

Lemma marker_position_boundaries_witness :
  exists markers,
    customEvents scenario_log scenario_tags = Some markers /\
    {| name := "A"; background := tag_background scenario_tags "A";
       position := "0.00%" |} ∈ markers /\
    {| name := "B"; background := tag_background scenario_tags "B";
       position := "100.00%" |} ∈ markers.
Proof.
  destruct (marker_position_boundaries (event_at 0 (customEvent "A"))
              [event_at 500 fullSnapshotEvent;
               event_at 1000 (customEvent "B")]
              scenario_tags (of_Z 0) (of_Z 1000))
    as (markers & Hc & _ & Hb);
    [reflexivity|reflexivity|vm_compute; reflexivity|vm_compute; reflexivity|].
  exists markers. split; [exact Hc|]. split.
  - apply (Hb (event_at 0 (customEvent "A")) "A");
      [left|reflexivity|reflexivity].
  - apply (Hb (event_at 1000 (customEvent "B")) "B");
      [right; right; left|reflexivity|reflexivity].
Defined.

(** * The controller *)

Local Close Scope string_scope.
Local Close Scope N_scope.

#[local] Arguments of_Z : simpl never.
#[local] Arguments flt : simpl never.
#[local] Arguments fmul : simpl never.
#[local] Arguments fdiv : simpl never.
#[local] Arguments fsub : simpl never.

Section ControllerProperties.

Context {E : Type} `{Replayer E}.

Notation "x <~ m ;> k" := (bind m (fun x => k))
  (at level 90, m at level 80, right associativity).
Notation "m ;> k" := (bind m (fun _ => k))
  (at level 90, right associativity).

(** ** Composing steps *)

Lemma respects_ret (R : World E -> World E -> Prop) `{!Reflexive R}
    {A : Type} (a : A) :
  respects R (ret a).
Proof. intros w. reflexivity. Qed.

Lemma respects_read (R : World E -> World E -> Prop) `{!Reflexive R}
    {A : Type} (f : Component -> A) :
  respects R (read f).
Proof. intros w. reflexivity. Qed.

Lemma respects_bind (R : World E -> World E -> Prop) `{!Transitive R}
    {A B : Type} (m : M A) (k : A -> M B) :
  respects R m -> (forall a, respects R (k a)) -> respects R (bind m k).
Proof.
  intros Hm Hk w. unfold bind. specialize (Hm w).
  destruct (m w) as [a w']. etransitivity; [exact Hm|apply Hk].
Qed.

Lemma respects_when (R : World E -> World E -> Prop) `{!Reflexive R}
    (b : bool) (m : M unit) :
  respects R m -> respects R (when b m).
Proof. intros Hm. destruct b; [exact Hm|apply respects_ret; assumption]. Qed.

#[local] Instance handler_frame_refl : Reflexive (@handler_frame E).
Proof. intros w. repeat split. Qed.

#[local] Instance handler_frame_trans : Transitive (@handler_frame E).
Proof.
  intros w1 w2 w3 (?&?&?&?&?&?&?) (?&?&?&?&?&?&?).
  repeat split; congruence.
Qed.

#[local] Instance hears_refl : Reflexive (@hears E).
Proof.
  intros w. exists []. split; [symmetry; apply app_nil_r|auto].
Qed.

#[local] Instance hears_trans : Transitive (@hears E).
Proof.
  intros w1 w2 w3 (l1 & H1 & F1) (l2 & H2 & F2). exists (l1 ++ l2). split.
  - rewrite H2, H1. symmetry. apply app_assoc.
  - intros Hnot Hf. apply F2.
    + intros Hin. apply Hnot, elem_of_app. auto.
    + apply F1; [|exact Hf]. intros Hin. apply Hnot, elem_of_app. auto.
Qed.

#[local] Instance keeps_refl P : Reflexive (@keeps E P).
Proof. intros w Hw. exact Hw. Qed.

#[local] Instance keeps_trans P : Transitive (@keeps E P).
Proof. intros w1 w2 w3 H12 H23 Hw. auto. Qed.

(** A handler-framed step hears nothing. *)
Lemma handler_frame_hears (w w' : World E) : handler_frame w w' -> hears w w'.
Proof.
  intros (_&_&_&Hh&_&_&Hf). exists []. split.
  - rewrite Hh. symmetry. apply app_nil_r.
  - intros _. congruence.
Qed.

Create HintDb respects discriminated.

Ltac step_respects :=
  repeat first
    [ solve [auto 1 with respects nocore]
    | apply respects_ret; [typeclasses eauto]
    | apply respects_read; [typeclasses eauto]
    | apply respects_bind; [typeclasses eauto| |intros ?]
    | apply respects_when; [typeclasses eauto|] ].

(** ** The timer functions and the handlers *)

Lemma assign_frame f :
  (forall c, currentTime (f c) = currentTime c /\ meta (f c) = meta c /\
             finished (f c) = finished c) ->
  respects (E:=E) handler_frame (assign f).
Proof.
  intros Hf w. destruct (Hf (component w)) as (?&?&?). repeat split; assumption.
Qed.

Lemma requestAnimationFrame_frame :
  respects (E:=E) handler_frame requestAnimationFrame.
Proof. intros w. repeat split. Qed.

Lemma cancelAnimationFrame_frame h :
  respects (E:=E) handler_frame (cancelAnimationFrame h).
Proof. intros w. repeat split. Qed.

#[local] Hint Resolve requestAnimationFrame_frame cancelAnimationFrame_frame
  : respects.
#[local] Hint Extern 1 (respects handler_frame (assign _)) =>
  (apply assign_frame; intros ?; repeat split) : respects.

Lemma stopTimer_frame : respects (E:=E) handler_frame stopTimer.
Proof.
  unfold stopTimer. step_respects. destruct a as [h|]; [|step_respects].
  destruct (negb (h =? 0)%Z); step_respects.
Qed.

#[local] Hint Resolve stopTimer_frame : respects.

Lemma loopTimer_frame : respects (E:=E) handler_frame loopTimer.
Proof. unfold loopTimer. step_respects. Qed.

#[local] Hint Resolve loopTimer_frame : respects.

Lemma on_state_change_frame p s :
  respects (E:=E) handler_frame (on_state_change p s).
Proof.
  unfold on_state_change. step_respects.
  - destruct p as [v|]; step_respects.
    destruct v; step_respects.
  - destruct s as [v|]; step_respects.
Qed.

#[local] Hint Resolve on_state_change_frame : respects.

#[local] Instance notified_refl : Reflexive (@notified E).
Proof. intros w. repeat split. Qed.

#[local] Instance notified_trans : Transitive (@notified E).
Proof.
  intros w1 w2 w3 (?&?&?&?&?) (?&?&?&?&?). repeat split; congruence.
Qed.

Lemma handler_frame_notified (w w' : World E) :
  handler_frame w w' -> notified w w'.
Proof. intros (?&?&?&?&?&?&?). repeat split; assumption. Qed.

(** ** Notifications and engine calls *)

Lemma deliver_notified n : respects (E:=E) notified (deliver n).
Proof.
  intros w. unfold deliver. destruct (subscribed w) eqn:Hs; [|reflexivity].
  destruct n as [p s|].
  - match goal with |- notified _ (snd (_ ?w0)) =>
      pose proof (on_state_change_frame p s w0) as Hf end.
    apply handler_frame_notified in Hf.
    destruct Hf as (?&?&?&?&?). repeat split; cbn in *; congruence.
  - repeat split; cbn; congruence.
Qed.

#[local] Hint Resolve deliver_notified : respects.

Lemma deliver_all_notified ns : respects (E:=E) notified (deliver_all ns).
Proof. induction ns as [|n ns IH]; cbn [deliver_all]; step_respects. Qed.

(** An engine call is logged, moves the engine, and leaves the time
    cursor to the caller. *)
Lemma engine_call_spec c (w : World E) :
  let w' := exec (engine_call c) w in
  replayer w' = fst (engine_step c (replayer w)) /\
  calls w' = calls w ++ [c] /\
  subscribed w' = subscribed w /\
  currentTime (component w') = currentTime (component w) /\
  meta (component w') = meta (component w).
Proof.
  unfold exec, engine_call. destruct (engine_step c (replayer w)) as [e' ns].
  match goal with |- context [deliver_all ns ?w0] =>
    destruct (deliver_all_notified ns w0) as (?&?&?&?&?) end.
  repeat split; cbn in *; congruence.
Qed.

(** ** The exported commands *)

Lemma exec_play (w : World E) :
  exec play w =
  match playerState (component w) with
  | Some paused =>
      if finished (component w)
      then exec (assign (set_finished false))
                (exec (engine_call (CallPlay None)) w)
      else exec (engine_call (CallPlay (Some (currentTime (component w))))) w
  | _ => w
  end.
Proof.
  unfold play, exec, bind, read. cbn.
  case_bool_decide as Hd;
    destruct (playerState (component w)) as [[]|]; cbn; try reflexivity;
    try congruence; try (exfalso; apply Hd; discriminate).
  destruct (finished (component w)); cbn; [|reflexivity].
  destruct (engine_call (CallPlay None) w). reflexivity.
Qed.

Lemma exec_pause (w : World E) :
  exec pause w =
  match playerState (component w) with
  | Some playing => exec (engine_call CallPause) w
  | _ => w
  end.
Proof.
  unfold pause, exec, bind, read. cbn.
  case_bool_decide as Hd;
    destruct (playerState (component w)) as [[]|]; cbn; try reflexivity;
    try congruence; exfalso; apply Hd; discriminate.
Qed.

Lemma exec_toggle (w : World E) :
  exec toggle w =
  match playerState (component w) with
  | Some playing => exec pause w
  | Some paused => exec play w
  | _ => w
  end.
Proof.
  unfold toggle, exec, bind, read.
  destruct (playerState (component w)) as [[]|]; reflexivity.
Qed.

Lemma calls_play_paused (w : World E) :
  playerState (component w) = Some paused ->
  calls (exec play w) =
  calls w ++ [CallPlay (if finished (component w) then None
                        else Some (currentTime (component w)))].
Proof.
  intros Hp. rewrite exec_play, Hp.
  destruct (finished (component w)).
  - destruct (engine_call_spec (CallPlay None) w) as (_ & Hc & _).
    cbn in *. exact Hc.
  - destruct (engine_call_spec
                (CallPlay (Some (currentTime (component w)))) w)
      as (_ & Hc & _).
    exact Hc.
Qed.

Lemma play_cases (w : World E) :
  match playerState (component w) with
  | Some paused =>
      calls (exec play w) =
      calls w ++ [CallPlay (if finished (component w) then None
                            else Some (currentTime (component w)))]
  | _ => exec play w = w
  end.
Proof.
  destruct (playerState (component w)) as [[]|] eqn:Hp;
    try (rewrite exec_play, Hp; reflexivity).
  apply calls_play_paused. exact Hp.
Qed.

(** C6.  play() is a no-op unless the controller is paused; when paused
    it calls the engine's play without an offset if the finished flag is
    set, and at the stored currentTime otherwise. *)
Theorem play_guarded (w : World E) :
  match playerState (component w) with
  | Some paused =>
      calls (exec play w) =
      calls w ++ [CallPlay (if finished (component w) then None
                            else Some (currentTime (component w)))]
  | _ => exec play w = w
  end.
Proof. apply play_cases. Qed.

(** C5.  toggle() requests pause while playing, requests play while
    paused, and in any other state makes no engine call and changes
    nothing. *)
Theorem toggle_requests (w : World E) :
  match playerState (component w) with
  | Some playing => calls (exec toggle w) = calls w ++ [CallPause]
  | Some paused =>
      calls (exec toggle w) =
      calls w ++ [CallPlay (if finished (component w) then None
                            else Some (currentTime (component w)))]
  | _ => exec toggle w = w
  end.
Proof.
  rewrite exec_toggle.
  destruct (playerState (component w)) as [[]|] eqn:Hp; try reflexivity.
  - rewrite exec_pause, Hp.
    destruct (engine_call_spec CallPause w) as (_ & Hc & _). exact Hc.
  - apply calls_play_paused. exact Hp.
Qed.

Lemma exec_goto (timeOffset : number) (w : World E) :
  exec (goto timeOffset) w =
  let w1 := exec (assign (set_currentTime timeOffset)) w in
  let w2 := exec (engine_call CallPause) w1 in
  let w3 := exec (engine_call (CallPlay (Some timeOffset))) w2 in
  if bool_decide (playerState (component w) = Some playing) then w3
  else exec (engine_call CallPause) w3.
Proof.
  unfold goto, exec, bind, read, when, assign. cbn.
  destruct (engine_call CallPause _) as [[] w2]. cbn.
  destruct (engine_call (CallPlay (Some timeOffset)) w2) as [[] w3]. cbn.
  case_bool_decide; reflexivity.
Qed.

Lemma not_flt_fle x y :
  val x <> None -> val y <> None -> flt x y = false -> fle y x = true.
Proof.
  unfold flt, fle. destruct (val x) as [a|], (val y) as [b|]; try congruence.
  intros _ _. destruct a, b; cbn; try congruence; lia.
Qed.

Lemma click_percent_cases clientX rect_left rect_width :
  let q := fdiv (fsub clientX rect_left) rect_width in
  let fraction := click_percent clientX rect_left rect_width in
  match val q with
  | None => fraction = NaN
  | Some _ =>
      fraction = (if flt q (of_Z 0) then of_Z 0
                  else if flt (of_Z 1) q then of_Z 1 else q) /\
      fle (of_Z 0) fraction = true /\ fle fraction (of_Z 1) = true
  end.
Proof.
  cbv zeta. unfold click_percent, fgt.
  set (q := fdiv (fsub clientX rect_left) rect_width).
  destruct (val q) as [a|] eqn:Hq.
  - split; [reflexivity|].
    assert (H0 : val (of_Z 0) <> None) by (rewrite of_Z_0; discriminate).
    assert (H1 : val (of_Z 1) <> None) by (rewrite of_Z_1; discriminate).
    assert (Hqn : val q <> None) by congruence.
    destruct (flt q (of_Z 0)) eqn:Hlt0.
    { split; vm_compute; reflexivity. }
    destruct (flt (of_Z 1) q) eqn:Hlt1.
    { split; vm_compute; reflexivity. }
    split; apply not_flt_fle; assumption.
  - destruct q; try discriminate Hq; [reflexivity|].
    destruct neg; discriminate Hq.
Qed.

(** The click handler.  A click on the progress track while the speed
    state is skipping makes no goto() call and changes nothing.  Otherwise
    the offset divided by the track width is replaced by 0 when below 0
    and by 1 when above 1, multiplied by totalDuration and passed to
    goto(); the fraction lies in [0,1] unless the quotient is NaN, which
    neither comparison catches. *)
Lemma handleProgressClick_spec (w : World E) clientX rect_left rect_width :
  let q := fdiv (fsub clientX rect_left) rect_width in
  let fraction := click_percent clientX rect_left rect_width in
  exec (handleProgressClick clientX rect_left rect_width) w =
  (if bool_decide (speedState (component w) = Some skipping) then w
   else exec (goto (fmul (totalTime (meta (component w))) fraction)) w) /\
  match val q with
  | None => fraction = NaN
  | Some _ =>
      fraction = (if flt q (of_Z 0) then of_Z 0
                  else if flt (of_Z 1) q then of_Z 1 else q) /\
      fle (of_Z 0) fraction = true /\ fle fraction (of_Z 1) = true
  end.
Proof.
  cbv zeta. split; [|apply click_percent_cases].
  unfold handleProgressClick, exec, bind, read.
  case_bool_decide; reflexivity.
Qed.

(** ** Mirroring the engine *)

Lemma stopTimer_playerState (w : World E) :
  playerState (component (exec stopTimer w)) = playerState (component w).
Proof.
  unfold stopTimer, exec, bind, read. cbn.
  destruct (timer (component w)) as [h|]; [|reflexivity].
  destruct (h =? 0)%Z; reflexivity.
Qed.

Lemma loopTimer_playerState (w : World E) :
  playerState (component (exec loopTimer w)) = playerState (component w).
Proof.
  unfold loopTimer, stopTimer, exec, bind, read. cbn.
  destruct (timer (component w)) as [h|]; [|reflexivity].
  destruct (h =? 0)%Z; reflexivity.
Qed.

(** After a state-change notification the controller holds the player
    value it carried. *)
Lemma on_state_change_playerState p s (w : World E) :
  playerState (component (exec (on_state_change p s) w)) =
  match p with
  | Some v => Some v
  | None => playerState (component w)
  end.
Proof.
  destruct w as [c e b sb cl hd].
  unfold on_state_change, loopTimer, stopTimer, exec, bind, read, when,
    assign, ret, requestAnimationFrame, cancelAnimationFrame.
  cbn.
  destruct p as [v|]; [case_bool_decide as Hd; [destruct v|]|]; cbn;
    try (destruct (timer c) as [h|]; [destruct (h =? 0)%Z|]; cbn);
    destruct s; cbn; try case_bool_decide; cbn; try reflexivity.
  all: cbn in Hd; exact Hd.
Qed.

Lemma deliver_all_playerState ns (w : World E) v :
  subscribed w = true ->
  playerState (component w) = Some v ->
  playerState (component (exec (deliver_all ns) w)) = Some (announced v ns).
Proof.
  revert w v. induction ns as [|n ns IH]; intros w v Hs Hp; [exact Hp|].
  cbn [deliver_all]. unfold exec, bind.
  destruct (deliver n w) as [[] w1] eqn:Hd.
  assert (Hw1 : w1 = exec (deliver n) w) by (unfold exec; rewrite Hd; reflexivity).
  unfold announced. cbn [fold_left]. apply IH.
  - destruct (deliver_notified n w) as (_&_&Hs1&_). unfold exec in Hw1.
    rewrite Hw1. congruence.
  - rewrite Hw1. unfold exec, deliver. rewrite Hs.
    destruct n as [p s|].
    + match goal with |- context [on_state_change p s ?w0] =>
        pose proof (on_state_change_playerState p s w0) as Ho end.
      unfold exec in Ho. rewrite Ho. destruct p; [reflexivity|exact Hp].
    + cbn. exact Hp.
Qed.

(** Under the player-machine laws an engine call keeps the mirror. *)
Lemma engine_call_mirrors `{!PlayerMachine} c (w : World E) :
  (c = CallPause \/ exists o, c = CallPlay o) ->
  mirrors w -> mirrors (exec (engine_call c) w).
Proof.
  intros Hc [Hs Hp].
  destruct (engine_call_spec c w) as (Hr & _ & Hs' & _). cbv zeta in *.
  split; [congruence|]. rewrite Hr.
  unfold exec, engine_call.
  destruct (engine_step c (replayer w)) as [e' ns] eqn:He. cbn [fst].
  match goal with |- context [deliver_all ns ?w0] =>
    pose proof (deliver_all_playerState ns w0
                  (service_state_value (replayer w)) Hs Hp) as Hd end.
  unfold exec in Hd. rewrite Hd. f_equal.
  destruct Hc as [->|[o ->]]; cbn [engine_step] in He.
  - pose proof (pause_announced (replayer w)) as Ha. rewrite He in Ha. exact Ha.
  - pose proof (play_announced o (replayer w)) as Ha. rewrite He in Ha. exact Ha.
Qed.

(** C1.  On a mounted controller that mirrors an engine following the
    player machine, goto(t) sets the time cursor to t, calls pause and
    play(t) on the engine and then pause again exactly when the controller
    was not playing; the controller's PlaybackState is the same after the
    call as before it, and the engine ends playing iff it was playing. *)
Theorem goto_preserves_playback_state `{!PlayerMachine} (w : World E) t :
  mirrors w ->
  let w' := exec (goto t) w in
  currentTime (component w') = t /\
  calls w' =
    calls w ++ [CallPause; CallPlay (Some t)] ++
    (if bool_decide (playerState (component w) = Some playing)
     then [] else [CallPause]) /\
  playerState (component w') = playerState (component w) /\
  (service_state_value (replayer w') = playing <->
   service_state_value (replayer w) = playing) /\
  mirrors w'.
Proof.
  intros Hm. cbv zeta. rewrite exec_goto. cbv zeta.
  set (w1 := exec (assign (set_currentTime t)) w).
  set (w2 := exec (engine_call CallPause) w1).
  set (w3 := exec (engine_call (CallPlay (Some t))) w2).
  assert (Hm1 : mirrors w1) by exact Hm.
  assert (Ht1 : currentTime (component w1) = t) by reflexivity.
  assert (Hc1 : calls w1 = calls w) by reflexivity.
  assert (Hm2 : mirrors w2) by (apply engine_call_mirrors; auto).
  assert (Hm3 : mirrors w3) by (apply engine_call_mirrors; eauto).
  destruct (engine_call_spec CallPause w1) as (Hr2 & Hc2 & _ & Ht2 & _).
  destruct (engine_call_spec (CallPlay (Some t)) w2)
    as (Hr3 & Hc3 & _ & Ht3 & _).
  fold w2 in Hr2, Hc2, Ht2. fold w3 in Hr3, Hc3, Ht3.
  cbn [engine_step] in Hr2, Hr3.
  assert (Hv2 : service_state_value (replayer w2) =
                match service_state_value (replayer w) with
                | playing => paused | v => v end)
    by (rewrite Hr2; apply pause_value).
  assert (Hv3 : service_state_value (replayer w3) =
                match service_state_value (replayer w2) with
                | paused => playing | v => v end)
    by (rewrite Hr3; apply play_value).
  destruct Hm as [Hs Hp]. destruct Hm3 as [Hs3 Hp3].
  case_bool_decide as Hplaying.
  - rewrite Hp in Hplaying. injection Hplaying as Hplaying.
    rewrite Hplaying in *. rewrite Hv2 in Hv3.
    split; [congruence|]. split; [|repeat split; congruence].
    rewrite Hc3, Hc2, Hc1, <- !app_assoc. reflexivity.
  - set (w4 := exec (engine_call CallPause) w3).
    assert (Hm4 : mirrors w4) by (apply engine_call_mirrors; [auto|split; auto]).
    destruct (engine_call_spec CallPause w3) as (Hr4 & Hc4 & _ & Ht4 & _).
    fold w4 in Hr4, Hc4, Ht4. cbn [engine_step] in Hr4.
    assert (Hv4 : service_state_value (replayer w4) =
                  match service_state_value (replayer w3) with
                  | playing => paused | v => v end)
      by (rewrite Hr4; apply pause_value).
    destruct Hm4 as [Hs4 Hp4].
    assert (Hne : service_state_value (replayer w) <> playing) by congruence.
    assert (Hsame : service_state_value (replayer w4) =
                    service_state_value (replayer w)).
    { rewrite Hv4, Hv3, Hv2.
      destruct (service_state_value (replayer w)); congruence. }
    split; [congruence|]. split; [|repeat split; congruence].
    rewrite Hc4, Hc3, Hc2, Hc1, <- !app_assoc. reflexivity.
Qed.

(** ** The finished flag *)

Lemma respects_frame_hears {A : Type} (m : M A) :
  respects (E:=E) handler_frame m -> respects (E:=E) hears m.
Proof. intros Hm w. apply handler_frame_hears, Hm. Qed.

Lemma assign_hears f :
  (forall c, finished c = false -> finished (f c) = false) ->
  respects (E:=E) hears (assign f).
Proof.
  intros Hf w. exists []. split; [symmetry; apply app_nil_r|].
  intros _. apply Hf.
Qed.

#[local] Hint Extern 1 (respects hears (assign _)) =>
  (apply assign_hears; intros ? ?; assumption || reflexivity) : respects.
#[local] Hint Extern 2 (respects hears _) =>
  (apply respects_frame_hears; solve [auto 1 with respects nocore])
  : respects.

Lemma deliver_hears n : respects (E:=E) hears (deliver n).
Proof.
  intros w. unfold deliver. destruct (subscribed w) eqn:Hs; [|reflexivity].
  exists [n]. destruct n as [p s|].
  - match goal with |- context [on_state_change p s ?w0] =>
      destruct (on_state_change_frame p s w0) as (_&_&_&Hh&_&_&Hf) end.
    cbn in *. split; [exact Hh|]. intros _. congruence.
  - split; [reflexivity|]. intros Hnot. exfalso. apply Hnot. left.
Qed.

#[local] Hint Resolve deliver_hears : respects.

Lemma deliver_all_hears ns : respects (E:=E) hears (deliver_all ns).
Proof. induction ns as [|n ns IH]; cbn [deliver_all]; step_respects. Qed.

Lemma engine_call_hears c : respects (E:=E) hears (engine_call c).
Proof.
  intros w. unfold engine_call.
  destruct (engine_step c (replayer w)) as [e' ns].
  match goal with |- context [deliver_all ns ?w0] =>
    destruct (deliver_all_hears ns w0) as (l & Hh & Hf) end.
  exists l. split; assumption.
Qed.

#[local] Hint Resolve engine_call_hears : respects.

Lemma engine_moves_hears e' ns : respects (E:=E) hears (engine_moves e' ns).
Proof.
  intros w. unfold engine_moves.
  match goal with |- context [deliver_all ns ?w0] =>
    destruct (deliver_all_hears ns w0) as (l & Hh & Hf) end.
  exists l. split; assumption.
Qed.

Lemma update_hears : respects (E:=E) hears update.
Proof.
  assert (Hr : forall now,
             respects (E:=E) hears
               (assign (set_currentTime now) ;>
                total <~ read (fun c => totalTime (meta c)) ;>
                if flt now total
                then (h <~ requestAnimationFrame ;> assign (set_timer (Some h)))
                else ret tt)).
  { intros now. step_respects. }
  intros w. apply Hr.
Qed.

#[local] Hint Resolve update_hears : respects.

Lemma fire_hears h : respects (E:=E) hears (fire h).
Proof.
  intros w. unfold fire. destruct (existsb _ _); [|reflexivity].
  revert w. change (respects (E:=E) hears (cancelAnimationFrame h ;> update)).
  step_respects.
Qed.

Lemma play_hears : respects (E:=E) hears play.
Proof.
  unfold play. step_respects. case_bool_decide; step_respects.
  destruct a0; step_respects.
Qed.

Lemma pause_hears : respects (E:=E) hears pause.
Proof. unfold pause. step_respects. case_bool_decide; step_respects. Qed.

#[local] Hint Resolve play_hears pause_hears : respects.

Lemma goto_hears t : respects (E:=E) hears (goto t).
Proof. unfold goto. step_respects. Qed.

#[local] Hint Resolve goto_hears : respects.

Lemma perform_hears a : respects (E:=E) hears (perform a).
Proof.
  destruct a; cbn [perform].
  - unfold toggle. step_respects. destruct a as [[]|]; step_respects.
  - apply play_hears.
  - apply pause_hears.
  - apply goto_hears.
  - unfold handleProgressClick. step_respects.
    case_bool_decide; step_respects.
  - unfold setSpeed. step_respects.
  - unfold toggleSkipInactive. step_respects.
  - intros w. unfold afterUpdate.
    generalize (replayer_config_skipInactive (replayer w)). intros b.
    revert w.
    change (respects (E:=E) hears
              (skip <~ read skipInactive ;>
               when (negb (Bool.eqb skip b))
                 (engine_call (CallSetConfig (config_skipInactive skip))))).
    step_respects.
  - apply fire_hears.
  - apply engine_moves_hears.
  - unfold onDestroy. step_respects.
Qed.

Lemma run_cons a acts (w : World E) :
  run (a :: acts) w = run acts (exec (perform a) w).
Proof. reflexivity. Qed.

Lemma run_hears acts (w : World E) : hears w (run acts w).
Proof.
  revert w. induction acts as [|a acts IH]; intros w; [reflexivity|].
  rewrite run_cons. etransitivity; [apply perform_hears|apply IH].
Qed.


(** ** The timer loop *)

Lemma assign_invariant f :
  (forall c, timer (f c) = timer c /\ playerState (f c) = playerState c) ->
  respects (E:=E) (keeps timer_invariant) (assign f).
Proof.
  intros Hf w (I1 & I2 & I3 & I4). destruct (Hf (component w)) as [Ht Hp].
  unfold timer_invariant. cbn. rewrite Ht, Hp. auto.
Qed.

#[local] Hint Extern 1 (respects (keeps timer_invariant) (assign _)) =>
  (apply assign_invariant; intros ?; split; reflexivity) : respects.

Lemma filter_other_handle (fr : list Z) (h : Z) (t : option Z) :
  (fr = [] \/ exists h', fr = [h'] /\ t = Some h') ->
  t = Some h ->
  List.filter (fun h0 => negb (h0 =? h)%Z) fr = [].
Proof.
  intros [->|(h' & -> & Hh')] Ht; [reflexivity|].
  rewrite Hh' in Ht. injection Ht as ->. cbn. rewrite Z.eqb_refl. reflexivity.
Qed.

Lemma no_timer_no_frame (fr : list Z) (t : option Z) :
  (fr = [] \/ exists h', fr = [h'] /\ t = Some h') -> t = None -> fr = [].
Proof. intros [->|(h' & _ & Hh')] Ht; [reflexivity|congruence]. Qed.

Lemma stopTimer_invariant : respects (E:=E) (keeps timer_invariant) stopTimer.
Proof.
  intros [c e [fr lh] sb cl hd] (I1 & I2 & I3 & I4).
  unfold stopTimer, exec, bind, read, assign, cancelAnimationFrame, ret.
  cbn in *. destruct (timer c) as [h|] eqn:Ht.
  2:{ unfold timer_invariant. cbn. rewrite Ht. auto. }
  specialize (I2 h eq_refl).
  destruct (Z.eqb_spec h 0) as [|_]; [lia|]. cbn.
  rewrite (filter_other_handle fr h (Some h) I3 eq_refl).
  unfold timer_invariant. cbn. repeat split; auto; discriminate.
Qed.

#[local] Hint Resolve stopTimer_invariant : respects.

(** Starting the loop leaves exactly one frame pending. *)
Lemma loopTimer_one_frame (w : World E) :
  timer_invariant w ->
  frames (browser (exec loopTimer w)) = [(last_handle (browser w) + 1)%Z].
Proof.
  destruct w as [c e [fr lh] sb cl hd]. intros (I1 & I2 & I3 & I4).
  unfold loopTimer, stopTimer, exec, bind, read, assign,
    cancelAnimationFrame, requestAnimationFrame, ret.
  cbn in *. destruct (timer c) as [h|] eqn:Ht.
  - specialize (I2 h eq_refl).
    destruct (Z.eqb_spec h 0) as [|_]; [lia|]. cbn.
    rewrite (filter_other_handle fr h (Some h) I3 eq_refl). reflexivity.
  - cbn. rewrite (no_timer_no_frame fr None I3 eq_refl). reflexivity.
Qed.

Lemma on_state_change_invariant p s :
  respects (E:=E) (keeps timer_invariant) (on_state_change p s).
Proof.
  unfold on_state_change. apply respects_bind; [typeclasses eauto| |].
  2:{ intros _. destruct s; step_respects. }
  destruct p as [v|]; [|step_respects].
  intros [c e [fr lh] sb cl hd] (I1 & I2 & I3 & I4).
  unfold loopTimer, stopTimer, exec, bind, read, assign,
    cancelAnimationFrame, requestAnimationFrame, ret.
  cbn in *. case_bool_decide as Hd.
  2:{ unfold timer_invariant. cbn. auto. }
  destruct v; cbn.
  - (* playing: the loop is restarted *)
    destruct (timer c) as [h|] eqn:Ht.
    + specialize (I2 h eq_refl).
      destruct (Z.eqb_spec h 0) as [|_]; [lia|]. cbn.
      rewrite (filter_other_handle fr h (Some h) I3 eq_refl).
      unfold timer_invariant. cbn. split; [lia|]. split.
      { intros h0 [= <-]. lia. }
      split; [right; eexists; split; reflexivity|discriminate].
    + cbn. rewrite (no_timer_no_frame fr None I3 eq_refl).
      unfold timer_invariant. cbn. split; [lia|]. split.
      { intros h0 [= <-]. lia. }
      split; [right; eexists; split; reflexivity|discriminate].
  - (* paused: the loop is stopped *)
    destruct (timer c) as [h|] eqn:Ht.
    + specialize (I2 h eq_refl).
      destruct (Z.eqb_spec h 0) as [|_]; [lia|]. cbn.
      rewrite (filter_other_handle fr h (Some h) I3 eq_refl).
      unfold timer_invariant. cbn. repeat split; auto; discriminate.
    + cbn. rewrite (no_timer_no_frame fr None I3 eq_refl).
      unfold timer_invariant. cbn. rewrite Ht.
      repeat split; auto; discriminate.
  - (* live: the timer is left as it is *)
    unfold timer_invariant. cbn. repeat split; auto; discriminate.
Qed.

#[local] Hint Resolve on_state_change_invariant : respects.

Lemma deliver_invariant n :
  respects (E:=E) (keeps timer_invariant) (deliver n).
Proof.
  intros w Hw. unfold deliver. destruct (subscribed w); [|exact Hw].
  destruct n as [p s|].
  - apply on_state_change_invariant. exact Hw.
  - exact Hw.
Qed.

#[local] Hint Resolve deliver_invariant : respects.

Lemma deliver_all_invariant ns :
  respects (E:=E) (keeps timer_invariant) (deliver_all ns).
Proof. induction ns as [|n ns IH]; cbn [deliver_all]; step_respects. Qed.

Lemma engine_call_invariant c :
  respects (E:=E) (keeps timer_invariant) (engine_call c).
Proof.
  intros w Hw. unfold engine_call.
  destruct (engine_step c (replayer w)) as [e' ns].
  apply deliver_all_invariant. exact Hw.
Qed.

#[local] Hint Resolve engine_call_invariant : respects.

Lemma engine_moves_invariant e' ns :
  respects (E:=E) (keeps timer_invariant) (engine_moves e' ns).
Proof. intros w Hw. apply deliver_all_invariant. exact Hw. Qed.

(** A pending frame fires: the loop goes on with a fresh frame or ends. *)
Lemma fire_invariant h : respects (E:=E) (keeps timer_invariant) (fire h).
Proof.
  intros [c e [fr lh] sb cl hd] (I1 & I2 & I3 & I4).
  unfold fire. cbn in *.
  destruct (existsb (fun h0 => (h0 =? h)%Z) fr) eqn:Hex.
  2:{ unfold timer_invariant. cbn. auto. }
  destruct I3 as [->|(h' & -> & Ht)]; [discriminate Hex|].
  cbn in Hex. rewrite orb_false_r in Hex. apply Z.eqb_eq in Hex. subst h'.
  assert (Hnp : playerState c <> Some paused).
  { intros Hp. destruct (I4 Hp) as [Hnil _]. discriminate Hnil. }
  unfold update, exec, bind, read, assign, cancelAnimationFrame,
    requestAnimationFrame, ret.
  cbn. rewrite Z.eqb_refl. cbn.
  destruct (flt (replayer_getCurrentTime e) (totalTime (meta c))); cbn;
    unfold timer_invariant; cbn.
  - split; [lia|]. split; [intros h0 [= <-]; lia|].
    split; [right; eexists; split; reflexivity|].
    intros Hp. contradiction.
  - split; [assumption|]. split; [assumption|]. split; [left; reflexivity|].
    intros Hp. contradiction.
Qed.

Lemma play_invariant : respects (E:=E) (keeps timer_invariant) play.
Proof.
  unfold play. step_respects. case_bool_decide; step_respects.
  destruct a0; step_respects.
Qed.

Lemma pause_invariant : respects (E:=E) (keeps timer_invariant) pause.
Proof. unfold pause. step_respects. case_bool_decide; step_respects. Qed.

#[local] Hint Resolve play_invariant pause_invariant : respects.

Lemma goto_invariant t : respects (E:=E) (keeps timer_invariant) (goto t).
Proof. unfold goto. step_respects. Qed.

#[local] Hint Resolve goto_invariant : respects.

Lemma perform_invariant a :
  respects (E:=E) (keeps timer_invariant) (perform a).
Proof.
  destruct a; cbn [perform].
  - unfold toggle. step_respects. destruct a as [[]|]; step_respects.
  - apply play_invariant.
  - apply pause_invariant.
  - apply goto_invariant.
  - unfold handleProgressClick. step_respects.
    case_bool_decide; step_respects.
  - unfold setSpeed. step_respects.
  - unfold toggleSkipInactive. step_respects.
  - intros w. unfold afterUpdate.
    generalize (replayer_config_skipInactive (replayer w)). intros b.
    revert w.
    change (respects (E:=E) (keeps timer_invariant)
              (skip <~ read skipInactive ;>
               when (negb (Bool.eqb skip b))
                 (engine_call (CallSetConfig (config_skipInactive skip))))).
    step_respects.
  - apply fire_invariant.
  - apply engine_moves_invariant.
  - unfold onDestroy. step_respects.
Qed.

Lemma onMount_invariant auto skip speed0 tags0 e handle0 :
  (0 <= handle0)%Z ->
  timer_invariant (exec onMount (created auto skip speed0 tags0 e handle0)).
Proof.
  intros Hh. unfold onMount, created, exec, bind, assign, read. cbn.
  destruct auto; cbn.
  - apply engine_call_invariant. unfold timer_invariant. cbn.
    repeat split; auto; discriminate.
  - unfold timer_invariant. cbn. repeat split; auto; discriminate.
Qed.

Lemma reachable_invariant (w : World E) : reachable w -> timer_invariant w.
Proof.
  induction 1 as [auto skip speed0 tags0 e handle0 Hh|w a _ IH].
  - apply onMount_invariant. exact Hh.
  - apply perform_invariant. exact IH.
Qed.

Lemma stopTimer_stopped (w : World E) :
  timer (component w) = None -> exec stopTimer w = w.
Proof.
  intros Ht. unfold stopTimer, exec, bind, read. cbn. rewrite Ht. reflexivity.
Qed.

Lemma stopTimer_idempotent (w : World E) :
  exec stopTimer (exec stopTimer w) = exec stopTimer w.
Proof.
  destruct (timer (component w)) as [h|] eqn:Ht.
  - destruct (Z.eqb_spec h 0) as [Hz|Hnz].
    + assert (Hw : exec stopTimer w = w).
      { unfold stopTimer, exec, bind, read. cbn. rewrite Ht.
        apply Z.eqb_eq in Hz. rewrite Hz. reflexivity. }
      rewrite !Hw. reflexivity.
    + apply stopTimer_stopped.
      unfold stopTimer, exec, bind, read. cbn. rewrite Ht.
      apply Z.eqb_neq in Hnz. rewrite Hnz. reflexivity.
  - rewrite (stopTimer_stopped w Ht). apply stopTimer_stopped. exact Ht.
Qed.

(** C4.  In every state the mounted controller can reach, no frame of the
    timer loop is pending while PlaybackState is paused and at most one
    frame is pending at any time; loopTimer leaves exactly one frame
    pending, whatever was pending before; stopping a stopped timer changes
    nothing. *)
Theorem timer_loop_invariant (w : World E) :
  reachable w ->
  (playerState (component w) = Some paused -> ~ timer_active w) /\
  (length (frames (browser w)) <= 1)%nat /\
  length (frames (browser (exec loopTimer w))) = 1%nat /\
  exec stopTimer (exec stopTimer w) = exec stopTimer w /\
  (timer (component w) = None -> exec stopTimer w = w).
Proof.
  intros Hr. pose proof (reachable_invariant w Hr) as Hinv.
  pose proof Hinv as (I1 & I2 & I3 & I4).
  split; [|split; [|split; [|split]]].
  - intros Hp Hact. apply Hact. destruct (I4 Hp) as [Hnil _]. exact Hnil.
  - destruct I3 as [->|(h & -> & _)]; cbn; lia.
  - rewrite loopTimer_one_frame; [reflexivity|exact Hinv].
  - apply stopTimer_idempotent.
  - apply stopTimer_stopped.
Qed.

(** ** Further properties of the commands *)

(** X1.  pause() is a no-op unless the controller is playing; when playing
    it makes exactly one pause call on the engine. *)
Theorem pause_guarded (w : World E) :
  match playerState (component w) with
  | Some playing => calls (exec pause w) = calls w ++ [CallPause]
  | _ => exec pause w = w
  end.
Proof.
  rewrite exec_pause.
  destruct (playerState (component w)) as [[]|]; try reflexivity.
  destruct (engine_call_spec CallPause w) as (_ & Hc & _). exact Hc.
Qed.

(** The props are out of the handlers' reach. *)
Lemma assign_keeps_prop (Q : Component -> Prop) f :
  (forall c, Q c -> Q (f c)) ->
  respects (E:=E) (keeps (fun w => Q (component w))) (assign f).
Proof. intros Hf w Hw. apply Hf, Hw. Qed.

Lemma engine_call_keeps_speed v b c :
  respects (E:=E)
    (keeps (fun w => speed (component w) = v /\
                     skipInactive (component w) = b))
    (engine_call c).
Proof.
  set (Q := fun c : Component => speed c = v /\ skipInactive c = b).
  assert (Ha : forall f, (forall c, Q c -> Q (f c)) ->
                         respects (E:=E) (keeps (fun w => Q (component w)))
                           (assign f))
    by (intros; apply assign_keeps_prop; assumption).
  assert (Hraf : respects (E:=E) (keeps (fun w => Q (component w)))
                   requestAnimationFrame) by (intros w Hw; exact Hw).
  assert (Hcaf : forall h, respects (E:=E) (keeps (fun w => Q (component w)))
                             (cancelAnimationFrame h))
    by (intros h w Hw; exact Hw).
  assert (Hstop : respects (E:=E) (keeps (fun w => Q (component w))) stopTimer).
  { unfold stopTimer. step_respects. destruct a as [h|]; [|step_respects].
    destruct (negb (h =? 0)%Z); step_respects; auto. }
  assert (Hloop : respects (E:=E) (keeps (fun w => Q (component w))) loopTimer).
  { unfold loopTimer. step_respects; auto. }
  assert (Hosc : forall p s, respects (E:=E) (keeps (fun w => Q (component w)))
                               (on_state_change p s)).
  { intros p s. unfold on_state_change. step_respects.
    - destruct p as [pv|]; step_respects; auto.
      destruct pv; step_respects; auto.
    - destruct s as [sv|]; step_respects; auto. }
  assert (Hdel : forall ns, respects (E:=E) (keeps (fun w => Q (component w)))
                              (deliver_all ns)).
  { induction ns as [|n ns IH]; cbn [deliver_all]; step_respects; auto.
    intros w Hw. unfold deliver. destruct (subscribed w); [|exact Hw].
    destruct n as [p s|]; [apply Hosc; exact Hw|exact Hw]. }
  intros w Hw. unfold engine_call.
  destruct (engine_step c (replayer w)) as [e' ns].
  apply Hdel. exact Hw.
Qed.

Lemma exec_setSpeed (newSpeed : number) (w : World E) :
  exec (setSpeed newSpeed) w =
  let w1 := exec (assign (set_speed newSpeed)) w in
  let config := CallSetConfig (config_speed newSpeed) in
  if bool_decide (playerState (component w) = Some playing)
  then
    let w2 := exec (engine_call CallPause) w1 in
    let w3 := exec (engine_call config) w2 in
    exec (engine_call (CallPlay (Some (currentTime (component w3))))) w3
  else exec (engine_call config) w1.
Proof.
  unfold setSpeed, exec, bind, read, when, assign. cbn.
  case_bool_decide; cbn.
  - destruct (engine_call CallPause _) as [[] w2]. cbn.
    destruct (engine_call (CallSetConfig (config_speed newSpeed)) w2)
      as [[] w3]. reflexivity.
  - destruct (engine_call (CallSetConfig (config_speed newSpeed)) _)
      as [[] w2]. reflexivity.
Qed.

(** X2.  setSpeed(v) stores v, leaves the time cursor alone and configures
    the engine's speed; while playing it brackets the change with pause
    and play at the stored current time, otherwise it makes no other
    call. *)
Theorem setSpeed_calls (w : World E) (newSpeed : number) :
  let w' := exec (setSpeed newSpeed) w in
  speed (component w') = newSpeed /\
  skipInactive (component w') = skipInactive (component w) /\
  currentTime (component w') = currentTime (component w) /\
  calls w' =
    calls w ++
    (if bool_decide (playerState (component w) = Some playing)
     then [CallPause; CallSetConfig (config_speed newSpeed);
           CallPlay (Some (currentTime (component w)))]
     else [CallSetConfig (config_speed newSpeed)]).
Proof.
  cbv zeta. rewrite exec_setSpeed. cbv zeta.
  set (w1 := exec (assign (set_speed newSpeed)) w).
  assert (Hq1 : speed (component w1) = newSpeed /\
                skipInactive (component w1) = skipInactive (component w))
    by (split; reflexivity).
  assert (Ht1 : currentTime (component w1) = currentTime (component w))
    by reflexivity.
  assert (Hc1 : calls w1 = calls w) by reflexivity.
  assert (Hstep : forall c (w0 : World E),
            speed (component w0) = newSpeed /\
            skipInactive (component w0) = skipInactive (component w) ->
            (speed (component (exec (engine_call c) w0)) = newSpeed /\
             skipInactive (component (exec (engine_call c) w0)) =
             skipInactive (component w)) /\
            currentTime (component (exec (engine_call c) w0)) =
            currentTime (component w0) /\
            calls (exec (engine_call c) w0) = calls w0 ++ [c]).
  { intros c w0 Hq. split.
    - apply (engine_call_keeps_speed newSpeed
               (skipInactive (component w)) c w0 Hq).
    - destruct (engine_call_spec c w0) as (_ & Hc & _ & Ht & _). auto. }
  case_bool_decide as Hp.
  - set (w2 := exec (engine_call CallPause) w1).
    set (w3 := exec (engine_call (CallSetConfig (config_speed newSpeed))) w2).
    destruct (Hstep CallPause w1 Hq1) as (Hq2 & Ht2 & Hc2).
    fold w2 in Hq2, Ht2, Hc2.
    destruct (Hstep (CallSetConfig (config_speed newSpeed)) w2 Hq2)
      as (Hq3 & Ht3 & Hc3).
    fold w3 in Hq3, Ht3, Hc3.
    destruct (Hstep (CallPlay (Some (currentTime (component w3)))) w3 Hq3)
      as ([Hs4 Hk4] & Ht4 & Hc4).
    assert (Htime : currentTime (component w3) = currentTime (component w))
      by congruence.
    rewrite Htime in *.
    split; [exact Hs4|]. split; [exact Hk4|]. split; [congruence|].
    rewrite Hc4, Hc3, Hc2, Hc1, <- !app_assoc. reflexivity.
  - destruct (Hstep (CallSetConfig (config_speed newSpeed)) w1 Hq1)
      as ([Hs2 Hk2] & Ht2 & Hc2).
    split; [exact Hs2|]. split; [exact Hk2|]. split; [congruence|].
    rewrite Hc2, Hc1. reflexivity.
Qed.

(** X3.  toggleSkipInactive() only flips the flag: it makes no engine call
    and two toggles cancel out.  The engine is configured by the next
    afterUpdate, and only if the flag then differs from the engine's
    setting. *)
Theorem skipInactive_deferred (w : World E) :
  calls (exec toggleSkipInactive w) = calls w /\
  replayer (exec toggleSkipInactive w) = replayer w /\
  skipInactive (component (exec toggleSkipInactive w)) =
    negb (skipInactive (component w)) /\
  exec toggleSkipInactive (exec toggleSkipInactive w) = w /\
  (if Bool.eqb (skipInactive (component w))
               (replayer_config_skipInactive (replayer w))
   then exec afterUpdate w = w
   else calls (exec afterUpdate w) =
        calls w ++
        [CallSetConfig (config_skipInactive (skipInactive (component w)))]).
Proof.
  split; [reflexivity|]. split; [reflexivity|]. split; [reflexivity|]. split.
  - destruct w as [[a sk sp tg ct tm ps ss fin mt] e b sb cl hd].
    unfold toggleSkipInactive, exec, bind, read, assign, set_skipInactive.
    cbn. rewrite negb_involutive. reflexivity.
  - unfold afterUpdate, exec, bind, read, when. cbn.
    destruct (Bool.eqb _ _); cbn; [reflexivity|].
    match goal with |- context [engine_call ?c w] =>
      destruct (engine_call_spec c w) as (_ & Hc & _) end.
    exact Hc.
Qed.

(** X4.  Neither a frame of the timer loop nor a notification from the
    engine makes the controller call the engine. *)
Theorem handlers_make_no_calls (w : World E) h e' ns :
  calls (exec (fire h) w) = calls w /\
  replayer (exec (fire h) w) = replayer w /\
  calls (exec (engine_moves e' ns) w) = calls w /\
  replayer (exec (engine_moves e' ns) w) = e'.
Proof.
  assert (Hfire : calls (exec (fire h) w) = calls w /\
                  replayer (exec (fire h) w) = replayer w).
  { unfold exec, fire. destruct (existsb _ _); [|split; reflexivity].
    unfold update, bind, read, assign, cancelAnimationFrame,
      requestAnimationFrame, ret. cbn.
    destruct (flt _ _); cbn; split; reflexivity. }
  destruct Hfire as (Hc & Hr).
  split; [exact Hc|]. split; [exact Hr|].
  unfold exec, engine_moves.
  match goal with |- context [deliver_all ns ?w0] =>
    destruct (deliver_all_notified ns w0) as (Hr' & Hc' & _) end.
  split; [exact Hc'|exact Hr'].
Qed.

(** ** Further properties of the timer loop and the handlers *)

(** X5.  When a pending frame of a reachable controller fires, the time
    cursor takes the engine's current time; the loop requests exactly one
    new frame if that time is below the total time and ends otherwise. *)
Theorem timer_loop_step (w : World E) (h : Z) :
  reachable w ->
  h ∈ frames (browser w) ->
  let now := replayer_getCurrentTime (replayer w) in
  let w' := exec (fire h) w in
  currentTime (component w') = now /\
  playerState (component w') = playerState (component w) /\
  frames (browser w') =
    (if flt now (totalTime (meta (component w)))
     then [(last_handle (browser w) + 1)%Z] else []) /\
  (flt now (totalTime (meta (component w))) = true ->
   timer (component w') = Some (last_handle (browser w) + 1)%Z).
Proof.
  intros Hr Hin. apply reachable_invariant in Hr.
  destruct w as [c e [fr lh] sb cl hd]. destruct Hr as (I1 & I2 & I3 & I4).
  cbn in *. destruct I3 as [->|(h' & -> & Ht)]; [inversion Hin|].
  apply list_elem_of_singleton in Hin. subst h'.
  assert (Hex : existsb (fun h0 => (h0 =? h)%Z) [h] = true)
    by (unfold existsb; rewrite Z.eqb_refl; reflexivity).
  assert (Hfl : List.filter (fun h0 => negb (h0 =? h)%Z) [h] = [])
    by (unfold List.filter; rewrite Z.eqb_refl; reflexivity).
  unfold fire, exec. cbn [frames browser]. rewrite Hex.
  unfold update, bind, read, assign, cancelAnimationFrame,
    requestAnimationFrame, ret. cbn [frames browser fst snd]. rewrite Hfl.
  cbn.
  destruct (flt (replayer_getCurrentTime e) (totalTime (meta c))); cbn;
    repeat split; discriminate.
Qed.

Lemma on_state_change_frames (w : World E) v s :
  timer_invariant w ->
  let w' := exec (on_state_change (Some v) s) w in
  playerState (component w') = Some v /\
  match v with
  | playing =>
      frames (browser w') =
      (if bool_decide (playerState (component w) = Some playing)
       then frames (browser w)
       else [(last_handle (browser w) + 1)%Z])
  | paused => frames (browser w') = [] /\ timer (component w') = None
  | live => frames (browser w') = frames (browser w)
  end.
Proof.
  intros Hr. cbv zeta.
  split; [apply on_state_change_playerState|].
  destruct w as [c e [fr lh] sb cl hd]. destruct Hr as (I1 & I2 & I3 & I4).
  unfold on_state_change, loopTimer, stopTimer, exec, bind, read, when,
    assign, ret, requestAnimationFrame, cancelAnimationFrame.
  cbn in *.
  destruct (decide (playerState c = Some v)) as [Heq|Hne].
  - (* nothing new *)
    rewrite (bool_decide_eq_false_2 (playerState c <> Some v))
      by (intros Hx; exact (Hx Heq)).
    cbn. destruct v.
    + rewrite bool_decide_eq_true_2 by exact Heq.
      destruct s; cbn; [case_bool_decide|]; reflexivity.
    + destruct (I4 Heq) as [Hfr Htm]. subst fr.
      destruct s; cbn; [case_bool_decide|]; cbn; split;
        try reflexivity; exact Htm.
    + destruct s; cbn; [case_bool_decide|]; reflexivity.
  - rewrite (bool_decide_eq_true_2 (playerState c <> Some v)) by exact Hne.
    cbn. destruct v; cbn.
    + (* to playing *)
      rewrite bool_decide_eq_false_2 by exact Hne.
      destruct (timer c) as [h|] eqn:Ht.
      * specialize (I2 h eq_refl).
        destruct (Z.eqb_spec h 0) as [|_]; [lia|]. cbn.
        rewrite (filter_other_handle fr h (Some h) I3 eq_refl).
        destruct s; cbn; [case_bool_decide|]; reflexivity.
      * cbn. rewrite (no_timer_no_frame fr None I3 eq_refl).
        destruct s; cbn; [case_bool_decide|]; reflexivity.
    + (* to paused *)
      destruct (timer c) as [h|] eqn:Ht.
      * specialize (I2 h eq_refl).
        destruct (Z.eqb_spec h 0) as [|_]; [lia|]. cbn.
        rewrite (filter_other_handle fr h (Some h) I3 eq_refl).
        destruct s; cbn; [case_bool_decide|]; split; reflexivity.
      * cbn. rewrite (no_timer_no_frame fr None I3 eq_refl).
        destruct s; cbn; [case_bool_decide|]; cbn; rewrite ?Ht; split;
          reflexivity.
    + destruct s; cbn; [case_bool_decide|]; reflexivity.
Qed.

(** X6.  The state-change handler stores the player value it is given.  On
    a change to playing it leaves exactly one frame pending; on paused no
    frame is pending and the timer is null; a change to live, or no
    change, leaves the frames as they are. *)
Theorem state_change_drives_timer (w : World E) v s :
  reachable w ->
  let w' := exec (on_state_change (Some v) s) w in
  playerState (component w') = Some v /\
  match v with
  | playing =>
      frames (browser w') =
      (if bool_decide (playerState (component w) = Some playing)
       then frames (browser w)
       else [(last_handle (browser w) + 1)%Z])
  | paused => frames (browser w') = [] /\ timer (component w') = None
  | live => frames (browser w') = frames (browser w)
  end.
Proof. intros Hr. apply on_state_change_frames, reachable_invariant, Hr. Qed.

(** X7.  A state-change notification that carries nothing new (each field
    absent or equal to the value held) changes nothing. *)
Theorem redundant_state_change (w : World E) p s :
  (p = None \/ p = playerState (component w)) ->
  (s = None \/ s = speedState (component w)) ->
  exec (on_state_change p s) w = w.
Proof.
  intros Hp Hs.
  assert (Hp' : forall v, p = Some v -> playerState (component w) = Some v)
    by (intros v ->; destruct Hp; congruence).
  assert (Hs' : forall v, s = Some v -> speedState (component w) = Some v)
    by (intros v ->; destruct Hs; congruence).
  unfold on_state_change, exec, bind, read, when, ret.
  destruct p as [pv|]; cbn;
    [rewrite (bool_decide_eq_false_2 (playerState (component w) <> Some pv))
       by (intros Hx; apply Hx; auto); cbn|];
    (destruct s as [sv|]; cbn;
     [rewrite (bool_decide_eq_false_2 (speedState (component w) <> Some sv))
        by (intros Hx; apply Hx; auto)|]; reflexivity).
Qed.

(** A speed-only notification leaves the player state and the frames. *)
Lemma on_state_change_speed_only (w : World E) s :
  playerState (component (exec (on_state_change None s) w)) =
    playerState (component w) /\
  frames (browser (exec (on_state_change None s) w)) = frames (browser w).
Proof.
  unfold on_state_change, exec, bind, read, when, assign, ret. cbn.
  destruct s; cbn; [case_bool_decide|]; split; reflexivity.
Qed.

Lemma on_state_change_playing_frames p s (w : World E) :
  timer_invariant w ->
  (playerState (component w) = Some playing ->
   length (frames (browser w)) = 1%nat) ->
  playerState (component (exec (on_state_change p s) w)) = Some playing ->
  length (frames (browser (exec (on_state_change p s) w))) = 1%nat.
Proof.
  intros Hinv Hone. destruct p as [v|].
  - destruct (on_state_change_frames w v s Hinv) as [Hp Hf].
    rewrite Hp. intros [= ->]. rewrite Hf.
    case_bool_decide; [auto|reflexivity].
  - destruct (on_state_change_speed_only w s) as [Hp Hf].
    rewrite Hp, Hf. exact Hone.
Qed.

(** While notifications are handled, a playing controller with the timer
    invariant has exactly one frame pending, provided it had before. *)
Lemma deliver_all_playing_frames ns (w : World E) :
  timer_invariant w ->
  (playerState (component w) = Some playing ->
   length (frames (browser w)) = 1%nat) ->
  timer_invariant (exec (deliver_all ns) w) /\
  (playerState (component (exec (deliver_all ns) w)) = Some playing ->
   length (frames (browser (exec (deliver_all ns) w))) = 1%nat).
Proof.
  revert w. induction ns as [|n ns IH]; intros w Hinv Hone; [auto|].
  cbn [deliver_all]. unfold exec, bind.
  destruct (deliver n w) as [[] w1] eqn:Hd.
  assert (Hw1 : w1 = exec (deliver n) w)
    by (unfold exec; rewrite Hd; reflexivity).
  apply IH; rewrite Hw1.
  - apply deliver_invariant. exact Hinv.
  - unfold exec, deliver. destruct (subscribed w); [|exact Hone].
    destruct n as [p s|]; [|exact Hone].
    apply (on_state_change_playing_frames p s); [exact Hinv|exact Hone].
Qed.

Lemma engine_call_playing_frames c (w : World E) :
  timer_invariant w ->
  (playerState (component w) = Some playing ->
   length (frames (browser w)) = 1%nat) ->
  playerState (component (exec (engine_call c) w)) = Some playing ->
  length (frames (browser (exec (engine_call c) w))) = 1%nat.
Proof.
  intros Hinv Hone. unfold exec, engine_call.
  destruct (engine_step c (replayer w)) as [e' ns].
  match goal with |- context [deliver_all ns ?w0] =>
    destruct (deliver_all_playing_frames ns w0 Hinv Hone) as [_ Hf] end.
  exact Hf.
Qed.

Lemma stopTimer_clears (w : World E) :
  timer_invariant w ->
  frames (browser (exec stopTimer w)) = [] /\
  timer (component (exec stopTimer w)) = None.
Proof.
  destruct w as [c e [fr lh] sb cl hd]. intros (I1 & I2 & I3 & I4).
  unfold stopTimer, exec, bind, read, assign, cancelAnimationFrame, ret.
  cbn in *. destruct (timer c) as [h|] eqn:Ht.
  - specialize (I2 h eq_refl).
    destruct (Z.eqb_spec h 0) as [|_]; [lia|]. cbn.
    rewrite (filter_other_handle fr h (Some h) I3 eq_refl). auto.
  - cbn. rewrite (no_timer_no_frame fr None I3 eq_refl). auto.
Qed.

(** X8.  Teardown of a reachable controller makes one pause call and
    leaves no frame pending and the timer null, whatever the engine
    answers; the handlers stay subscribed. *)
Theorem onDestroy_stops_timer (w : World E) :
  reachable w ->
  let w' := exec onDestroy w in
  frames (browser w') = [] /\
  timer (component w') = None /\
  calls w' = calls w ++ [CallPause] /\
  subscribed w' = subscribed w.
Proof.
  intros Hr. apply reachable_invariant in Hr. cbv zeta.
  assert (Hex : exec onDestroy w =
                exec stopTimer (exec (engine_call CallPause) w)).
  { unfold onDestroy, exec, bind.
    destruct (engine_call CallPause w) as [[] w1]. reflexivity. }
  rewrite Hex.
  pose proof (engine_call_invariant CallPause w Hr) as Hinv1.
  destruct (stopTimer_clears _ Hinv1) as [Hf Ht].
  destruct (engine_call_spec CallPause w) as (_ & Hc & Hs & _).
  destruct (stopTimer_frame (exec (engine_call CallPause) w))
    as (_ & Hc' & Hs' & _).
  cbv zeta in *. unfold exec in *. repeat split; try assumption; congruence.
Qed.

(** ** Further properties of the mirror *)

Lemma exec_onMount_created auto skip speed0 tags0 (e : E) handle0 :
  exec onMount (created auto skip speed0 tags0 e handle0) =
  let w0 :=
    {| component :=
         {| autoPlay := auto; skipInactive := skip; speed := speed0;
            tags := tags0; currentTime := of_Z 0; timer := None;
            playerState := Some (service_state_value e);
            speedState := Some (speedService_state_value e);
            finished := false; meta := replayer_getMetaData e |};
       replayer := e;
       browser := {| frames := []; last_handle := handle0 |};
       subscribed := true; calls := []; heard := [] |} in
  if auto then exec (engine_call (CallPlay None)) w0 else w0.
Proof.
  unfold onMount, created, exec, bind, assign, read, when. cbn.
  destruct auto; reflexivity.
Qed.

Lemma play_mirrors `{!PlayerMachine} (w : World E) :
  mirrors w -> mirrors (exec play w).
Proof.
  intros Hm. rewrite exec_play.
  destruct (playerState (component w)) as [[]|]; try exact Hm.
  destruct (finished (component w)).
  - assert (Hm1 : mirrors (exec (engine_call (CallPlay None)) w))
      by (apply engine_call_mirrors; eauto).
    exact Hm1.
  - apply engine_call_mirrors; eauto.
Qed.

Lemma pause_mirrors `{!PlayerMachine} (w : World E) :
  mirrors w -> mirrors (exec pause w).
Proof.
  intros Hm. rewrite exec_pause.
  destruct (playerState (component w)) as [[]|]; try exact Hm.
  apply engine_call_mirrors; auto.
Qed.

Lemma goto_mirrors `{!PlayerMachine} t (w : World E) :
  mirrors w -> mirrors (exec (goto t) w).
Proof.
  intros Hm. rewrite exec_goto. cbv zeta.
  assert (Hm1 : mirrors (exec (assign (set_currentTime t)) w)) by exact Hm.
  assert (Hm3 : mirrors
                  (exec (engine_call (CallPlay (Some t)))
                     (exec (engine_call CallPause)
                        (exec (assign (set_currentTime t)) w))))
    by (apply engine_call_mirrors; [eauto|];
        apply engine_call_mirrors; auto).
  case_bool_decide; [exact Hm3|].
  apply engine_call_mirrors; auto.
Qed.

(** X9.  Mounting on an engine that follows the player machine leaves the
    controller subscribed and mirroring the engine, with the time cursor
    at 0; the only engine call is play() without an offset, made exactly
    when autoPlay is set. *)
Theorem onMount_mirrors `{!PlayerMachine} auto skip speed0 tags0 (e : E)
    handle0 :
  let w := exec onMount (created auto skip speed0 tags0 e handle0) in
  mirrors w /\
  currentTime (component w) = of_Z 0 /\
  calls w = (if auto then [CallPlay None] else []).
Proof.
  cbv zeta. rewrite exec_onMount_created. cbv zeta.
  destruct auto.
  - match goal with |- context [exec (engine_call (CallPlay None)) ?x] =>
      set (w0 := x) end.
    assert (Hm0 : mirrors w0) by (split; reflexivity).
    split; [apply engine_call_mirrors; eauto|].
    destruct (engine_call_spec (CallPlay None) w0) as (_ & Hc & _ & Ht & _).
    split; assumption.
  - split; [split; reflexivity|]. split; reflexivity.
Qed.

(** X10.  toggle, play, pause and goto keep the controller mirroring an
    engine that follows the player machine. *)
Theorem commands_keep_mirror `{!PlayerMachine} (w : World E) t :
  mirrors w ->
  mirrors (exec toggle w) /\ mirrors (exec play w) /\
  mirrors (exec pause w) /\ mirrors (exec (goto t) w).
Proof.
  intros Hm. split; [|split; [|split]].
  - rewrite exec_toggle.
    destruct (playerState (component w)) as [[]|];
      auto using play_mirrors, pause_mirrors.
  - apply play_mirrors, Hm.
  - apply pause_mirrors, Hm.
  - apply goto_mirrors, Hm.
Qed.

(** X11.  On a reachable controller that mirrors an engine following the
    player machine, toggle() while paused ends playing with exactly one
    frame of the timer loop pending; toggle() while playing ends paused
    with no frame pending; in live mode it changes nothing. *)
Theorem toggle_switches `{!PlayerMachine} (w : World E) :
  reachable w ->
  mirrors w ->
  match playerState (component w) with
  | Some paused =>
      playerState (component (exec toggle w)) = Some playing /\
      length (frames (browser (exec toggle w))) = 1%nat
  | Some playing =>
      playerState (component (exec toggle w)) = Some paused /\
      frames (browser (exec toggle w)) = []
  | _ => exec toggle w = w
  end.
Proof.
  intros Hr Hm. apply reachable_invariant in Hr.
  rewrite exec_toggle.
  destruct (playerState (component w)) as [[]|] eqn:Hp; try reflexivity.
  - (* playing: pause *)
    rewrite exec_pause, Hp.
    assert (Hm' : mirrors (exec (engine_call CallPause) w))
      by (apply engine_call_mirrors; auto).
    destruct (engine_call_spec CallPause w) as (Hr' & _). cbv zeta in Hr'.
    cbn [engine_step] in Hr'.
    pose proof (pause_value (replayer w)) as Hv.
    destruct Hm as [_ Hmp]. rewrite Hp in Hmp. injection Hmp as Hmp.
    rewrite <- Hmp in Hv.
    destruct Hm' as [_ Hp'].
    assert (Hpaused : playerState (component (exec (engine_call CallPause) w))
                      = Some paused) by congruence.
    split; [exact Hpaused|].
    pose proof (engine_call_invariant CallPause w Hr) as (_ & _ & _ & I4).
    apply I4, Hpaused.
  - (* paused: play *)
    assert (Hcall : forall o,
              playerState (component (exec (engine_call (CallPlay o)) w)) =
                Some playing /\
              length (frames (browser (exec (engine_call (CallPlay o)) w))) =
                1%nat).
    { intros o.
      assert (Hm' : mirrors (exec (engine_call (CallPlay o)) w))
        by (apply engine_call_mirrors; eauto).
      destruct (engine_call_spec (CallPlay o) w) as (Hr' & _).
      cbv zeta in Hr'. cbn [engine_step] in Hr'.
      pose proof (play_value o (replayer w)) as Hv.
      destruct Hm as [_ Hmp]. rewrite Hp in Hmp. injection Hmp as Hmp.
      rewrite <- Hmp in Hv.
      destruct Hm' as [_ Hp'].
      assert (Hplaying :
                playerState (component (exec (engine_call (CallPlay o)) w))
                = Some playing) by congruence.
      split; [exact Hplaying|].
      apply engine_call_playing_frames; [exact Hr| |exact Hplaying].
      intros Hx. congruence. }
    rewrite exec_play, Hp.
    destruct (finished (component w)); [|apply Hcall].
    destruct (Hcall None) as [H1 H2]. split; assumption.
Qed.

End ControllerProperties.

(** The concrete player machine follows the laws. *)
#[global] Instance Machine_PlayerMachine : PlayerMachine (E:=Machine).
Proof.
  split.
  - intros [[] ? ? ? ? ?]; reflexivity.
  - intros o [[] ? ? ? ? ?]; reflexivity.
  - intros [[] ? ? ? ? ?]; reflexivity.
  - intros o [[] ? ? ? ? ?]; reflexivity.
Qed.

Lemma goto_preserves_playback_state_witness :
  playerState (component (exec (goto (of_Z 500)) mounted_world)) =
  playerState (component mounted_world).
Proof.
  refine (proj1 (proj2 (proj2
    (goto_preserves_playback_state mounted_world (of_Z 500) _)))).
  split; reflexivity.
Defined.

Lemma timer_loop_invariant_witness :
  (length (frames (browser (exec (perform Play) mounted_world))) <= 1)%nat.
Proof.
  refine (proj1 (proj2
    (timer_loop_invariant (exec (perform Play) mounted_world) _))).
  apply reachable_step.
  apply (reachable_mount false false (of_Z 1) scenario_tags paused_machine 0).
  lia.
Defined.


(** C7 (the clamp misses NaN).  With the speed state normal, a click at
    the left edge of a track of width 0 gives the quotient 0/0: the
    fraction is NaN, not a value in [0,1], and the engine is asked to play
    at NaN. *)
Theorem progress_click_passes_NaN :
  speedState (component mounted_world) = Some normal /\
  click_percent (of_Z 0) (of_Z 0) (of_Z 0) = NaN /\
  fle (of_Z 0) (click_percent (of_Z 0) (of_Z 0) (of_Z 0)) = false /\
  calls (exec (handleProgressClick (of_Z 0) (of_Z 0) (of_Z 0)) mounted_world) =
  [CallPause; CallPlay (Some NaN); CallPause].
Proof. repeat split; vm_compute; reflexivity. Qed.

(** * The controller on the scenario machine *)

Lemma timer_loop_step_witness :
  currentTime (component (exec (fire 1) (exec (perform Play) mounted_world))) =
  replayer_getCurrentTime (replayer (exec (perform Play) mounted_world)).
Proof.
  refine (proj1
    (timer_loop_step (exec (perform Play) mounted_world) 1%Z _ _)).
  - apply reachable_step.
    apply (reachable_mount false false (of_Z 1) scenario_tags paused_machine 0).
    lia.
  - vm_compute. left.
Defined.

Lemma state_change_drives_timer_witness :
  frames (browser (exec (on_state_change (Some playing) None) mounted_world)) =
  [1%Z].
Proof.
  refine (proj2
    (state_change_drives_timer mounted_world playing None _)).
  apply (reachable_mount false false (of_Z 1) scenario_tags paused_machine 0).
  lia.
Defined.

Lemma redundant_state_change_witness :
  exec (on_state_change (Some paused) (Some normal)) mounted_world =
  mounted_world.
Proof.
  refine (redundant_state_change mounted_world (Some paused) (Some normal)
            _ _); right; vm_compute; reflexivity.
Defined.

Lemma onDestroy_stops_timer_witness :
  frames (browser (exec onDestroy (exec (perform Play) mounted_world))) = [].
Proof.
  refine (proj1
    (onDestroy_stops_timer (exec (perform Play) mounted_world) _)).
  apply reachable_step.
  apply (reachable_mount false false (of_Z 1) scenario_tags paused_machine 0).
  lia.
Defined.

Lemma onMount_mirrors_witness :
  mirrors mounted_world /\ calls mounted_world = [].
Proof.
  pose proof (onMount_mirrors
                false false (of_Z 1) scenario_tags paused_machine 0) as Hm.
  split; [exact (proj1 Hm)|exact (proj2 (proj2 Hm))].
Defined.

Lemma commands_keep_mirror_witness :
  mirrors (exec (goto (of_Z 500)) mounted_world).
Proof.
  refine (proj2 (proj2 (proj2
    (commands_keep_mirror
       mounted_world (of_Z 500) _)))).
  split; reflexivity.
Defined.

Lemma toggle_switches_witness :
  playerState (component (exec toggle mounted_world)) = Some playing /\
  length (frames (browser (exec toggle mounted_world))) = 1%nat.
Proof.
  refine (toggle_switches
            mounted_world _ _).
  - apply (reachable_mount false false (of_Z 1) scenario_tags paused_machine 0).
    lia.
  - split; reflexivity.
Defined.

Local Open Scope N_scope.

(** * Further properties of the numbers *)

Lemma rne_exact k d : 0 < d -> rne (k * d) d = k.
Proof.
  intros Hd. unfold rne. rewrite N.div_mul, N.Div0.mod_mul by lia.
  destruct (N.compare_spec (2 * 0) d); lia.
Qed.

(** A double is unchanged by rounding. *)
Lemma round_mag_exact u d :
  0 < d -> u mod 2 ^ (N.log2 u - 52) = 0 -> round_mag (u * d) d = u.
Proof.
  intros Hd Hu. unfold round_mag.
  rewrite N.div_mul by lia.
  set (sh := N.log2 u - 52) in *.
  pose proof (pow2_pos sh) as Hp.
  pose proof (N.div_mod u (2 ^ sh) ltac:(lia)) as Hdm. rewrite Hu in Hdm.
  set (k := u / 2 ^ sh) in *.
  replace (u * d) with (k * (d * 2 ^ sh)) by lia.
  rewrite rne_exact by lia. lia.
Qed.

Lemma fmul_comm x y : fmul x y = fmul y x.
Proof.
  destruct x as [|sx|sx ux], y as [|sy|sy uy]; unfold fmul;
    rewrite ?(xorb_comm sx sy), ?(N.mul_comm ux uy); reflexivity.
Qed.

(** Multiplying a double by 1 returns it. *)
Lemma fmul_one_r x : is_double x = true -> fmul x (of_Z 1) = x.
Proof.
  rewrite of_Z_1. destruct x as [|s|s u]; unfold fmul; cbn [is_double].
  - reflexivity.
  - intros _. destruct (N.eqb_spec unit_scale 0) as [Hz|_].
    + pose proof unit_scale_pos. lia.
    + rewrite xorb_false_r. reflexivity.
  - intros Hd. apply andb_true_iff in Hd as [Hlt Hmod].
    apply N.eqb_eq in Hmod.
    unfold round. rewrite round_mag_exact by (auto using unit_scale_pos).
    rewrite Hlt, xorb_false_r. reflexivity.
Qed.

(** The difference of two finite numbers is one rounding of the exact
    difference. *)
Lemma fsub_finite_form sx ux sy uy :
  exists s n,
    fsub (Finite sx ux) (Finite sy uy) = round s n 1 /\
    signed s n = (signed sx ux - signed sy uy)%Z.
Proof.
  unfold fsub.
  destruct (Z.eqb_spec (signed sx ux - signed sy uy) 0) as [Hz|Hnz].
  - exists (sx && negb sy && (ux =? 0) && (uy =? 0)), 0. split.
    + unfold round. rewrite round_mag_0 by lia.
      pose proof overflow_threshold_pos as Hf. apply N.ltb_lt in Hf.
      rewrite Hf. reflexivity.
    + rewrite Hz. destruct (_ && _); reflexivity.
  - eexists _, _. split; [reflexivity|].
    generalize dependent (signed sx ux - signed sy uy)%Z. intros z Hnz.
    unfold signed. destruct (Z.ltb_spec z 0); rewrite N2Z.inj_abs_N; lia.
Qed.

(** Subtracting from a finite number reverses the order. *)
Lemma fsub_antitone s u a b :
  fle a b = true ->
  fle (fsub (Finite s u) b) (fsub (Finite s u) a) = true.
Proof.
  intros Hle.
  destruct a as [|sa|sa ua], b as [|sb|sb ub];
    try (destruct sa; discriminate Hle); try (destruct sb; discriminate Hle);
    try discriminate Hle.
  - destruct sa, sb; try discriminate Hle; reflexivity.
  - destruct sa; [|discriminate Hle].
    destruct (fsub_finite_form s u sb ub) as (s' & n & -> & _).
    apply fle_PInf, round_not_NaN.
  - destruct sb; [destruct sa; discriminate Hle|].
    destruct (fsub_finite_form s u sa ua) as (s' & n & -> & _).
    apply fle_MInf, round_not_NaN.
  - destruct (fsub_finite_form s u sa ua) as (s1 & n1 & -> & H1).
    destruct (fsub_finite_form s u sb ub) as (s2 & n2 & -> & H2).
    apply fle_round_mono; [lia|].
    unfold fle in Hle. cbn in Hle. apply Z.leb_le in Hle. lia.
Qed.

Lemma fle_trans x y z : fle x y = true -> fle y z = true -> fle x z = true.
Proof.
  unfold fle. destruct (val x) as [a|], (val y) as [b|], (val z) as [c|];
    try discriminate; destruct a, b, c; cbn; try discriminate; try reflexivity.
  intros. lia.
Qed.

Lemma fle_non_NaN x y : fle x y = true -> val x <> None /\ val y <> None.
Proof.
  unfold fle. destruct (val x), (val y); try discriminate. split; discriminate.
Qed.

Local Open Scope string_scope.

(** * The progress percentage, continued *)

Lemma Math_min_1_le q :
  val q <> None -> fle (Math_min (of_Z 1) q) (of_Z 1) = true.
Proof.
  intros Hq. rewrite Math_min_1.
  assert (H1 : val (of_Z 1) <> None) by (rewrite of_Z_1; discriminate).
  destruct q as [|s|s u]; [contradiction| |];
    (destruct (flt (of_Z 1) _) eqn:Hlt;
     [vm_compute; reflexivity|apply not_flt_fle; assumption]).
Qed.

Lemma Math_min_1_ge q :
  fle (of_Z 0) q = true -> fle (of_Z 0) (Math_min (of_Z 1) q) = true.
Proof.
  intros Hq. rewrite Math_min_1.
  destruct q as [|s|s u].
  - exfalso. destruct (fle_non_NaN _ _ Hq) as [_ Hn]. apply Hn. reflexivity.
  - destruct (flt (of_Z 1) _); [vm_compute; reflexivity|exact Hq].
  - destruct (flt (of_Z 1) _); [vm_compute; reflexivity|exact Hq].
Qed.

Lemma fdiv_non_NaN c d :
  0 < d -> val c <> None -> val (fdiv c (Finite false d)) <> None.
Proof.
  intros Hd Hc. destruct c as [|s|s u]; [contradiction| |]; unfold fdiv.
  - destruct s; discriminate.
  - destruct (N.eqb_spec d 0); [lia|]. apply round_not_NaN.
Qed.

(** X12.  For a positive finite total time and any current time that is a
    number, the progress fraction is at most 1; it is at least 0 when the
    current time is. *)
Theorem percent_bounds total c :
  is_finite total = true ->
  flt (of_Z 0) total = true ->
  val c <> None ->
  fle (percent c total) (of_Z 1) = true /\
  (fle (of_Z 0) c = true -> fle (of_Z 0) (percent c total) = true).
Proof.
  intros Hfin Hpos Hc.
  destruct (positive_finite total Hfin Hpos) as (d & Hd & ->).
  unfold percent. split.
  - apply Math_min_1_le, fdiv_non_NaN; assumption.
  - intros H0. apply Math_min_1_ge.
    rewrite <- (fdiv_zero_l d Hd) at 1. rewrite of_Z_0 in H0.
    apply fdiv_mono; assumption.
Qed.

Lemma percent_bounds_witness :
  fle (percent (of_Z 250) (of_Z 1000)) (of_Z 1) = true.
Proof.
  refine (proj1 (percent_bounds (of_Z 1000) (of_Z 250) _ _ _));
    vm_compute; [reflexivity|reflexivity|discriminate].
Defined.

Lemma value_one q :
  fle (of_Z 1) q = true -> flt (of_Z 1) q = false -> q = of_Z 1.
Proof.
  rewrite of_Z_1. unfold fle, flt. pose proof unit_scale_pos as Hs.
  destruct q as [|s|s u]; cbn; try discriminate.
  - destruct s; discriminate.
  - intros Hle Hlt. apply Z.leb_le in Hle. apply Z.ltb_ge in Hlt.
    destruct s; unfold signed in *; [lia|]. f_equal. lia.
Qed.

Lemma percentage_of_one :
  Number_toString (fmul (of_Z 100) (of_Z 1)) +:+ "%" = "100%".
Proof. vm_compute. reflexivity. Qed.

(** X13.  For a positive finite total time, a current time at or past the
    end gives the fraction 1 and the percentage "100%"; a current time of
    zero gives "0%". *)
Theorem percentage_endpoints total c :
  is_finite total = true ->
  flt (of_Z 0) total = true ->
  (fle total c = true ->
   percent c total = of_Z 1 /\ percentage c total = "100%") /\
  (forall s, c = Finite s 0 -> percentage c total = "0%").
Proof.
  intros Hfin Hpos.
  destruct (positive_finite total Hfin Hpos) as (d & Hd & ->). split.
  - intros Hle.
    assert (Hq : fle (of_Z 1) (fdiv c (Finite false d)) = true).
    { rewrite <- (fdiv_self d Hd). apply fdiv_mono; assumption. }
    assert (Hp : percent c (Finite false d) = of_Z 1).
    { unfold percent. rewrite Math_min_1.
      destruct (fdiv c (Finite false d)) as [|s|s u] eqn:Hdiv.
      - exfalso. destruct (fle_non_NaN _ _ Hq) as [_ Hn]. apply Hn.
        reflexivity.
      - destruct (flt (of_Z 1) _) eqn:Hlt;
          [reflexivity|apply value_one; assumption].
      - destruct (flt (of_Z 1) _) eqn:Hlt;
          [reflexivity|apply value_one; assumption]. }
    split; [exact Hp|].
    unfold percentage, percentage_value. rewrite Hp.
    apply percentage_of_one.
  - intros s ->. unfold percentage, percentage_value, percent.
    assert (Hdiv : fdiv (Finite s 0) (Finite false d) = Finite s 0).
    { unfold fdiv. destruct (N.eqb_spec d 0); [lia|].
      unfold round. rewrite N.mul_0_l, round_mag_0 by assumption.
      pose proof overflow_threshold_pos as Hf. apply N.ltb_lt in Hf.
      rewrite Hf, xorb_false_r. reflexivity. }
    rewrite Hdiv. destruct s; vm_compute; reflexivity.
Qed.

Lemma percentage_endpoints_witness :
  percentage (of_Z 1500) (of_Z 1000) = "100%".
Proof.
  refine (proj2 (proj1 (percentage_endpoints (of_Z 1000) (of_Z 1500) _ _) _));
    vm_compute; reflexivity.
Defined.

(** X14.  With a total time of zero the percentage is "NaN%" while the
    current time is zero (or NaN), "100%" once it is positive and
    "-Infinity%" if it is negative. *)
Theorem percentage_zero_total c :
  percentage c (of_Z 0) =
  match c with
  | NaN => "NaN%"
  | Infinity neg => if neg then "-Infinity%" else "100%"
  | Finite neg u =>
      if (u =? 0)%N then "NaN%" else if neg then "-Infinity%" else "100%"
  end.
Proof.
  rewrite of_Z_0. destruct c as [|s|s u].
  - vm_compute. reflexivity.
  - destruct s; vm_compute; reflexivity.
  - unfold percentage, percentage_value, percent. unfold fdiv.
    change (0 =? 0)%N with true. cbv beta iota.
    destruct (u =? 0)%N; destruct s; vm_compute; reflexivity.
Qed.

(** * The marker position, continued *)

Lemma eventPosition_start r :
  (0 < r)%N ->
  fsub (of_Z 100) (fmul (fdiv (Finite false r) (Finite false r)) (of_Z 100))
  = of_Z 0.
Proof. intros Hr. rewrite fdiv_self by assumption. vm_compute. reflexivity. Qed.

Lemma eventPosition_end r :
  (0 < r)%N ->
  fsub (of_Z 100) (fmul (fdiv (Finite false 0) (Finite false r)) (of_Z 100))
  = of_Z 100.
Proof. intros Hr. rewrite fdiv_zero_l by assumption. vm_compute. reflexivity. Qed.

Lemma eventPosition_mono_core s1 u1 r a b :
  (0 < r)%N -> fle a b = true ->
  fle (fsub (of_Z 100)
         (fmul (fdiv (fsub (Finite s1 u1) a) (Finite false r)) (of_Z 100)))
      (fsub (of_Z 100)
         (fmul (fdiv (fsub (Finite s1 u1) b) (Finite false r)) (of_Z 100)))
  = true.
Proof.
  intros Hr Hle. rewrite of_Z_100.
  apply fsub_antitone.
  rewrite !(fmul_comm _ (Finite false (100 * unit_scale))).
  apply fmul_mono; [pose proof unit_scale_pos; lia|].
  apply fdiv_mono; [assumption|].
  apply fsub_antitone. exact Hle.
Qed.

Lemma finite_end t0 t1 :
  flt t0 t1 = true -> is_finite (fsub t1 t0) = true ->
  exists s u, t1 = Finite s u.
Proof.
  intros Hlt Hfin. destruct t1 as [|s1|s1 u1]; [discriminate Hfin| |eauto].
  destruct t0 as [|s0|s0 u0]; [discriminate Hfin | | discriminate Hfin].
  destruct s1, s0; discriminate.
Qed.

(** X15.  In a session with t0 < t1 and a finite duration the number behind
    a marker's position never decreases when the marker's timestamp
    increases. *)
Theorem eventPosition_monotone t0 t1 tm1 tm2 :
  flt t0 t1 = true ->
  is_finite (fsub t1 t0) = true ->
  fle tm1 tm2 = true ->
  tag_position t0 t1 tm1 = toFixed (eventPosition t0 t1 tm1) 2 /\
  fle (eventPosition t0 t1 tm1) (eventPosition t0 t1 tm2) = true.
Proof.
  intros Hlt Hfin Hle. split; [reflexivity|].
  destruct (session_duration_form t0 t1 Hlt Hfin) as (r & Hr & Hsd & _).
  destruct (finite_end t0 t1 Hlt Hfin) as (s1 & u1 & ->).
  unfold eventPosition. cbv zeta. rewrite Hsd.
  apply eventPosition_mono_core; assumption.
Qed.

Lemma eventPosition_monotone_witness :
  fle (eventPosition (of_Z 0) (of_Z 20000) (of_Z 19))
      (eventPosition (of_Z 0) (of_Z 20000) (of_Z 500)) = true.
Proof.
  refine (proj2 (eventPosition_monotone (of_Z 0) (of_Z 20000) (of_Z 19)
                   (of_Z 500) _ _ _)); vm_compute; reflexivity.
Defined.

(** X16.  In a session with t0 < t1 and a finite duration, a marker with
    t0 <= tm <= t1 has a position number between 0 and 100. *)
Theorem eventPosition_range t0 t1 tm :
  flt t0 t1 = true ->
  is_finite (fsub t1 t0) = true ->
  fle t0 tm = true ->
  fle tm t1 = true ->
  fle (of_Z 0) (eventPosition t0 t1 tm) = true /\
  fle (eventPosition t0 t1 tm) (of_Z 100) = true.
Proof.
  intros Hlt Hfin H0 H1.
  destruct (session_duration_form t0 t1 Hlt Hfin) as (r & Hr & Hsd & Hself).
  destruct (finite_end t0 t1 Hlt Hfin) as (s1 & u1 & ->).
  unfold eventPosition. cbv zeta. rewrite Hsd. split.
  - pose proof (eventPosition_mono_core s1 u1 r t0 tm Hr H0) as Hm.
    rewrite Hsd, (eventPosition_start r Hr) in Hm. exact Hm.
  - pose proof (eventPosition_mono_core s1 u1 r tm (Finite s1 u1) Hr H1)
      as Hm.
    rewrite Hself, (eventPosition_end r Hr) in Hm. exact Hm.
Qed.

Lemma eventPosition_range_witness :
  fle (eventPosition (of_Z 0) (of_Z 20000) (of_Z 19)) (of_Z 100) = true.
Proof.
  refine (proj2 (eventPosition_range (of_Z 0) (of_Z 20000) (of_Z 19)
                   _ _ _ _)); vm_compute; reflexivity.
Defined.

(** * The markers, continued *)

Lemma fold_push_custom start end_ tags events acc :
  fold_left (push_custom start end_ tags) events acc =
  (acc ++
   omap (fun event =>
           match data event with
           | customEvent tag =>
               Some {| name := tag;
                       background := tag_background tags tag;
                       position :=
                         tag_position start end_ (timestamp event) +:+ "%" |}
           | _ => None
           end) events)%list.
Proof.
  revert acc. induction events as [|e es IH]; intros acc; cbn [fold_left omap].
  - symmetry. apply app_nil_r.
  - rewrite IH. unfold push_custom. cbn [omap list_omap]. cbv beta.
    destruct (data e); try reflexivity.
    rewrite <- app_assoc. reflexivity.
Qed.

(** X17.  customEvents fails exactly on the empty log; otherwise it returns
    one marker per custom event, named by the event's tag, in log order,
    and passes over every other event. *)
Theorem customEvents_names events tags :
  match customEvents events tags with
  | None => events = []
  | Some markers =>
      events <> [] /\
      name <$> markers =
      omap (fun event => match data event with
                         | customEvent tag => Some tag
                         | _ => None
                         end) events /\
      (length markers <= length events)%nat
  end.
Proof.
  destruct events as [|first rest]; [reflexivity|].
  unfold customEvents. rewrite fold_push_custom. cbn [app].
  split; [discriminate|].
  generalize (first :: rest). intros events.
  assert (Hn : forall l : list eventWithTime,
    name <$>
      omap (fun event =>
              match data event with
              | customEvent tag =>
                  Some {| name := tag;
                          background := tag_background tags tag;
                          position :=
                            tag_position (timestamp first)
                              (timestamp (List.last events first))
                              (timestamp event) +:+ "%" |}
              | _ => None
              end) l =
    omap (fun event => match data event with
                       | customEvent tag => Some tag
                       | _ => None
                       end) l).
  { induction l as [|e es IH]; [reflexivity|]. cbn [omap list_omap]. cbv beta.
    destruct (data e); try exact IH.
    cbn [fmap list_fmap name]. rewrite <- IH. reflexivity. }
  split; [apply Hn|].
  rewrite <- (length_fmap name), Hn.
  clear. induction events as [|e es IH]; [cbn; lia|].
  cbn [omap list_omap length]. cbv beta. destruct (data e); cbn [length]; lia.
Qed.

(** X18.  A marker takes the colour that tags itself holds for its name.
    When tags holds none and the name is one that Object.prototype
    defines, the background is the inherited member, not a colour.  In
    the remaining cases (no entry at all, or the empty string as the
    colour) it is the default "rgb(73, 80, 246)". *)
Theorem customEvents_background events tags markers m :
  customEvents events tags = Some markers ->
  m ∈ markers ->
  match tags !! name m with
  | Some colour =>
      background m =
      Colour (if String.eqb colour EmptyString
              then "rgb(73, 80, 246)" else colour)
  | None =>
      background m =
      (if existsb (String.eqb (name m)) Object_prototype
       then Inherited (name m) else Colour "rgb(73, 80, 246)")
  end.
Proof.
  destruct events as [|first rest]; [discriminate|].
  intros Hc Hin.
  destruct (elem_of_customEvents first rest tags m) as (ms & Hms & Hiff).
  assert (ms = markers) as -> by congruence.
  apply Hiff in Hin as (event & tag & _ & _ & ->).
  cbn [name background]. unfold tag_background, tags_get.
  destruct (tags !! tag) as [[|c rest']|]; [reflexivity|reflexivity|].
  destruct (existsb (String.eqb tag) Object_prototype); reflexivity.
Qed.

Lemma customEvents_background_witness :
  customEvents inherited_tag_log scenario_tags =
  Some [ {| name := "constructor"; background := Inherited "constructor";
            position := "0.00%" |};
         {| name := "B"; background := "rgb(73, 80, 246)";
            position := "100.00%" |} ] /\
  background {| name := "constructor"; background := Inherited "constructor";
                position := "0.00%" |} =
  Inherited "constructor".
Proof.
  assert (Hc : customEvents inherited_tag_log scenario_tags =
    Some [ {| name := "constructor"; background := Inherited "constructor";
              position := "0.00%" |};
           {| name := "B"; background := "rgb(73, 80, 246)";
              position := "100.00%" |} ]) by (vm_compute; reflexivity).
  split; [exact Hc|].
  refine (customEvents_background inherited_tag_log scenario_tags _
            {| name := "constructor"; background := Inherited "constructor";
               position := "0.00%" |} Hc _).
  left.
Defined.

Local Close Scope string_scope.
Local Close Scope N_scope.


(** * The progress bar, continued *)

Section ProgressClick.

Context {E : Type} `{Replayer E}.

Lemma click_percent_right clientX rect_left d :
  (0 < d)%N ->
  fle (Finite false d) (fsub clientX rect_left) = true ->
  click_percent clientX rect_left (Finite false d) = of_Z 1.
Proof.
  intros Hd Hle. unfold click_percent, fgt.
  assert (Hq : fle (of_Z 1) (fdiv (fsub clientX rect_left) (Finite false d))
               = true).
  { rewrite <- (fdiv_self d Hd). apply fdiv_mono; assumption. }
  set (q := fdiv (fsub clientX rect_left) (Finite false d)) in *.
  assert (Hnot : flt q (of_Z 0) = false).
  { rewrite of_Z_1 in Hq. rewrite of_Z_0. unfold fle, flt in *.
    pose proof unit_scale_pos.
    destruct q as [|s|s u]; cbn in *; try discriminate Hq.
    - destruct s; [discriminate Hq|reflexivity].
    - apply Z.leb_le in Hq. apply Z.ltb_ge. lia. }
  rewrite Hnot. destruct (flt (of_Z 1) q) eqn:Hgt; [reflexivity|].
  apply value_one; assumption.
Qed.

Lemma click_percent_left clientX rect_left d :
  (0 < d)%N ->
  fle (fsub clientX rect_left) (of_Z 0) = true ->
  exists neg, click_percent clientX rect_left (Finite false d) = Finite neg 0.
Proof.
  intros Hd Hle. unfold click_percent, fgt.
  assert (Hq : fle (fdiv (fsub clientX rect_left) (Finite false d)) (of_Z 0)
               = true).
  { rewrite of_Z_0 in Hle.
    pose proof (fdiv_mono _ _ d Hd Hle) as Hm.
    rewrite (fdiv_zero_l d Hd) in Hm. exact Hm. }
  set (q := fdiv (fsub clientX rect_left) (Finite false d)) in *.
  destruct (flt q (of_Z 0)) eqn:Hlt.
  { exists false. apply of_Z_0. }
  rewrite of_Z_0 in Hq, Hlt. rewrite of_Z_1. unfold fle, flt in *.
  pose proof unit_scale_pos.
  destruct q as [|s|s u]; cbn in *; try discriminate Hq.
  - destruct s; discriminate.
  - apply Z.leb_le in Hq. apply Z.ltb_ge in Hlt.
    assert (u = 0%N) by (destruct s; unfold signed in *; lia). subst u.
    destruct (Z.ltb_spec (Z.of_N unit_scale) (signed s 0)) as [Hx|_].
    + destruct s; unfold signed in Hx; lia.
    + exists s. reflexivity.
Qed.

(** X19.  With the speed state not skipping, a positive finite track width
    and a finite total time, a click at or beyond the right edge of the
    track seeks to the total time, and a click at or before its left edge
    seeks to zero. *)
Theorem progress_click_edges (w : World E) clientX rect_left rect_width :
  speedState (component w) <> Some skipping ->
  is_finite (totalTime (meta (component w))) = true ->
  is_double (totalTime (meta (component w))) = true ->
  is_finite rect_width = true ->
  flt (of_Z 0) rect_width = true ->
  (fle rect_width (fsub clientX rect_left) = true ->
   exec (handleProgressClick clientX rect_left rect_width) w =
   exec (goto (totalTime (meta (component w)))) w) /\
  (fle (fsub clientX rect_left) (of_Z 0) = true ->
   exists neg,
     exec (handleProgressClick clientX rect_left rect_width) w =
     exec (goto (Finite neg 0)) w).
Proof.
  intros Hskip Hfin Hdbl Hwf Hwp.
  destruct (positive_finite rect_width Hwf Hwp) as (d & Hd & ->).
  assert (Hex : exec (handleProgressClick clientX rect_left (Finite false d)) w
                = exec (goto (fmul (totalTime (meta (component w)))
                                (click_percent clientX rect_left
                                   (Finite false d)))) w).
  { unfold handleProgressClick, exec, bind, read.
    rewrite bool_decide_eq_false_2 by exact Hskip. reflexivity. }
  rewrite Hex. split.
  - intros Hle. rewrite click_percent_right by assumption.
    rewrite fmul_one_r by exact Hdbl. reflexivity.
  - intros Hle.
    destruct (click_percent_left clientX rect_left d Hd Hle) as [neg ->].
    destruct (totalTime (meta (component w))) as [|st|st ut];
      try discriminate Hfin.
    exists (xorb st neg). f_equal. unfold fmul, round.
    rewrite N.mul_0_r. rewrite round_mag_0 by apply unit_scale_pos.
    pose proof overflow_threshold_pos as Hf. apply N.ltb_lt in Hf.
    rewrite Hf. reflexivity.
Qed.

End ProgressClick.

Lemma progress_click_edges_witness :
  exec (handleProgressClick (of_Z 300) (of_Z 100) (of_Z 150)) mounted_world =
  exec (goto (totalTime (meta (component mounted_world)))) mounted_world.
Proof.
  refine (proj1 (progress_click_edges mounted_world (of_Z 300) (of_Z 100)
                   (of_Z 150) _ _ _ _ _) _);
    try (vm_compute; reflexivity).
  vm_compute. discriminate.
Defined.
